(** * PiCam: the authenticated MJPEG stream server of [camera_server.py]

    A shallow embedding of the request handler ([AuthHandler.check_auth],
    [send_auth_request], [do_GET]), of the single-slot frame buffer
    ([StreamingOutput]) with its condition variable, and of the start-up
    sequence of the [__main__] block, followed by the properties proved
    about them. *)

From Stdlib Require Import String Ascii List NArith Lia Bool DecimalString DecimalNat.
From Stdlib.Strings Require Import Byte.
From stdpp Require Import base option list strings.
Import ListNotations.
Open Scope string_scope.
Open Scope list_scope.
Open Scope nat_scope.


(** ** Python values *)

(** [bytes] objects. *)
Definition bytes := list byte.

(** Text whose characters are arbitrary code points: what
    [bytes.decode('utf-8')] returns and what [os.getenv] yields. *)
Definition codepoint := N.
Definition pystr := list codepoint.

(** Header values and request paths are produced by [http.server] with a
    Latin-1 decoding, one character per octet: they are [string]s. *)

(** A literal of the source seen as code points. *)
Definition u (s : string) : pystr := map N_of_ascii (list_ascii_of_string s).

(** A [bytes] literal [b'...'] of the source. *)
Definition b (s : string) : bytes := list_byte_of_string s.

Definition CR : ascii := "013"%char.
Definition LF : ascii := "010"%char.
Definition CRLF : string := String CR (String LF EmptyString).
Definition DQUOTE : string := String "034"%char EmptyString.

(** The characters of a header value. *)
Abbreviation chars := list_ascii_of_string.

(** ** Exceptions *)

Inductive exn :=
| ValueError
| binascii_Error
| UnicodeDecodeError
| TypeError
| OSError
| RuntimeError
| KeyboardInterrupt.

Inductive result (A : Type) :=
| Return (a : A)
| Raise (e : exn).
Arguments Return {A} a.
Arguments Raise {A} e.

Definition rbind {A B} (m : result A) (k : A → result B) : result B :=
  match m with
  | Return a => k a
  | Raise e => Raise e
  end.

Notation "'let*' x ':=' m 'in' k" := (rbind m (fun x => k))
  (at level 10, x pattern, m at level 100, k at level 200).

(** [try: body except: return dflt] with a bare [except]. *)
Definition try_except {A} (body : result A) (dflt : A) : A :=
  match body with
  | Return a => a
  | Raise _ => dflt
  end.

(** ** The string operations [check_auth] uses *)

(** [s.split(sep, 1)] on a header value: the whole string when [sep] does not
    occur, else the text before and after its first occurrence. *)
Fixpoint split1 (sep : ascii) (s : string) : list string :=
  match s with
  | EmptyString => [EmptyString]
  | String c s' =>
      if Ascii.eqb c sep then [EmptyString; s']
      else match split1 sep s' with
           | a :: rest => String c a :: rest
           | [] => []
           end
  end.

(** The same on decoded text. *)
Fixpoint usplit1 (sep : codepoint) (s : pystr) : list pystr :=
  match s with
  | [] => [[]]
  | c :: s' =>
      if N.eqb c sep then [[]; s']
      else match usplit1 sep s' with
           | a :: rest => (c :: a) :: rest
           | [] => []
           end
  end.

(** The tuple assignment [x, y = parts]. *)
Definition unpack2 {A} (parts : list A) : result (A * A) :=
  match parts with
  | [x; y] => Return (x, y)
  | _ => Raise ValueError
  end.

(** [str.lower] on one Latin-1 character: [A-Z] and the accented capitals
    [U+00C0 .. U+00DE] other than the multiplication sign move up by 32. *)
Definition lower_char (c : ascii) : ascii :=
  let n := N_of_ascii c in
  if ((65 <=? n) && (n <=? 90))%N then ascii_of_N (n + 32)
  else if ((192 <=? n) && (n <=? 222) && negb (n =? 215))%N then ascii_of_N (n + 32)
  else c.

Fixpoint lower (s : string) : string :=
  match s with
  | EmptyString => EmptyString
  | String c s' => String (lower_char c) (lower s')
  end.

Definition COLON : codepoint := 58%N.

Definition pystr_eqb (x y : pystr) : bool := bool_decide (x = y).




(** ** [AuthHandler.check_auth] *)

Section Auth.

(** The configuration read from the environment when the module loads. *)
Variable USERNAME PASSWORD : pystr.

(** The two decoders of the standard library that the handler calls:
    [base64.b64decode] on a [str] and [bytes.decode('utf-8')]. Both either
    return or raise. *)
Variable b64decode : string → result bytes.
Variable decode_utf8 : bytes → result pystr.

(** The body of the [try] block, lines 43-49. *)
Definition check_auth_try (auth_header : string) : result bool :=
  let* (auth_type, credentials) := unpack2 (split1 " " auth_header) in
  if negb (String.eqb (lower auth_type) "basic") then Return false
  else
    let* raw := b64decode credentials in
    let* decoded := decode_utf8 raw in
    let* (username, password) := unpack2 (usplit1 COLON decoded) in
    Return (pystr_eqb username USERNAME && pystr_eqb password PASSWORD).

(** [self.headers.get('Authorization')] is [None] when the header is absent. *)
Definition check_auth (Authorization : option string) : bool :=
  match Authorization with
  | None => false
  | Some auth_header =>
      if String.eqb auth_header "" then false
      else try_except (check_auth_try auth_header) false
  end.

End Auth.

(** ** The decoders of the standard library

    Executable models of the two library calls, used to run [check_auth] on
    concrete headers. *)

Module PyLib.

(** The alphabet of [binascii]: the value of a base64 digit. *)
Definition b64_value (c : ascii) : option N :=
  let n := N_of_ascii c in
  if ((65 <=? n) && (n <=? 90))%N then Some (n - 65)%N
  else if ((97 <=? n) && (n <=? 122))%N then Some (n - 71)%N
  else if ((48 <=? n) && (n <=? 57))%N then Some (n + 4)%N
  else if (n =? 43)%N then Some 62%N
  else if (n =? 47)%N then Some 63%N
  else None.

Definition byte_of (n : N) : byte :=
  match Byte.of_N (n mod 256) with
  | Some x => x
  | None => x00
  end.

(** [binascii.a2b_base64] without [strict_mode]: characters outside the
    alphabet are skipped, a pad that completes a quad ends the input, and
    an incomplete quad at the end raises [binascii.Error]. *)
Fixpoint a2b_base64 (quad_pos : nat) (leftchar : N) (pads : nat)
    (data : list ascii) : result bytes :=
  match data with
  | [] => if Nat.eqb quad_pos 0 then Return [] else Raise binascii_Error
  | this_ch :: rest =>
      if Ascii.eqb this_ch "=" then
        if Nat.leb 2 quad_pos then
          if Nat.leb 4 (quad_pos + S pads) then Return []
          else a2b_base64 quad_pos leftchar (S pads) rest
        else a2b_base64 quad_pos leftchar pads rest
      else
        match b64_value this_ch with
        | None => a2b_base64 quad_pos leftchar pads rest
        | Some v =>
            match quad_pos with
            | 0 => a2b_base64 1 v 0 rest
            | 1 =>
                let* out := a2b_base64 2 (N.land v 15) 0 rest in
                Return (byte_of (N.lor (N.shiftl leftchar 2) (N.shiftr v 4)) :: out)
            | 2 =>
                let* out := a2b_base64 3 (N.land v 3) 0 rest in
                Return (byte_of (N.lor (N.shiftl leftchar 4) (N.shiftr v 2)) :: out)
            | _ =>
                let* out := a2b_base64 0 0 0 rest in
                Return (byte_of (N.lor (N.shiftl leftchar 6) v) :: out)
            end
        end
  end.

(** [base64.b64decode(s)] for a [str]: [s.encode('ascii')] raises
    [ValueError] on a character above 127. *)
Definition b64decode (s : string) : result bytes :=
  let data := list_ascii_of_string s in
  if forallb (fun c => (N_of_ascii c <? 128)%N) data
  then a2b_base64 0 0 0 data
  else Raise ValueError.

Definition cont (x : byte) : option N :=
  let n := Byte.to_N x in
  if ((128 <=? n) && (n <=? 191))%N then Some (n - 128)%N else None.

Definition in_range (lo hi : N) (x : byte) : bool :=
  ((lo <=? Byte.to_N x) && (Byte.to_N x <=? hi))%N.

(** [bytes.decode('utf-8')] with the default strict error handler: shortest
    forms only, no surrogates, nothing above [U+10FFFF]. *)
Fixpoint decode_utf8 (data : bytes) : result pystr :=
  match data with
  | [] => Return []
  | b0 :: r0 =>
      let n0 := Byte.to_N b0 in
      if (n0 <? 128)%N then
        let* s := decode_utf8 r0 in Return (n0 :: s)
      else if in_range 194 223 b0 then
        match r0 with
        | b1 :: r1 =>
            match cont b1 with
            | Some c1 =>
                let* s := decode_utf8 r1 in
                Return (((n0 - 192) * 64 + c1)%N :: s)
            | None => Raise UnicodeDecodeError
            end
        | _ => Raise UnicodeDecodeError
        end
      else if in_range 224 239 b0 then
        match r0 with
        | b1 :: b2 :: r2 =>
            match cont b1, cont b2 with
            | Some c1, Some c2 =>
                let cp := (((n0 - 224) * 64 + c1) * 64 + c2)%N in
                if ((cp <? 2048) || ((55296 <=? cp) && (cp <=? 57343)))%N
                then Raise UnicodeDecodeError
                else let* s := decode_utf8 r2 in Return (cp :: s)
            | _, _ => Raise UnicodeDecodeError
            end
        | _ => Raise UnicodeDecodeError
        end
      else if in_range 240 244 b0 then
        match r0 with
        | b1 :: b2 :: b3 :: r3 =>
            match cont b1, cont b2, cont b3 with
            | Some c1, Some c2, Some c3 =>
                let cp := ((((n0 - 240) * 64 + c1) * 64 + c2) * 64 + c3)%N in
                if ((cp <? 65536) || (1114111 <? cp))%N
                then Raise UnicodeDecodeError
                else let* s := decode_utf8 r3 in Return (cp :: s)
            | _, _, _ => Raise UnicodeDecodeError
            end
        | _ => Raise UnicodeDecodeError
        end
      else Raise UnicodeDecodeError
  end.

End PyLib.

(** ** The handler's operations on its connection

    One constructor per call the handler makes; [raise] stands for an
    expression of the handler that raises before any call is made. *)

Inductive instr :=
| send_response (code : nat)
| send_header (keyword value : string)
| end_headers
| wfile_write (data : bytes)
| send_error (code : nat)
| raise (e : exn).

(** The calls that write to the socket, and so fail once the client is gone:
    [send_response] and [send_header] only fill the headers buffer. *)
Definition writes (i : instr) : bool :=
  match i with
  | end_headers | wfile_write _ | send_error _ => true
  | send_response _ | send_header _ _ | raise _ => false
  end.

(** [str(n)] for a length. *)
Definition str (n : nat) : string := NilEmpty.string_of_uint (Nat.to_uint n).

(** What [do_GET] reads of the request: [self.headers.get('Authorization')]
    and [self.path], the request target as [parse_request] has left it. *)
Record request := { Authorization : option string; path : string }.

(** [send_auth_request], lines 53-58. *)
Definition send_auth_request : list instr :=
  [ send_response 401;
    send_header "WWW-Authenticate" ("Basic realm=" +:+ DQUOTE +:+ "Pi Camera" +:+ DQUOTE);
    send_header "Content-Type" "text/html";
    end_headers;
    wfile_write (b "<h1>401 - Authentication Required</h1>") ].

(** The head of the stream response, lines 229-234. *)
Definition stream_head : list instr :=
  [ send_response 200;
    send_header "Content-Type" "multipart/x-mixed-replace; boundary=FRAME";
    send_header "Cache-Control" "no-cache, no-store, must-revalidate";
    send_header "Pragma" "no-cache";
    send_header "Expires" "0";
    end_headers ].

(** One turn of the loop after [frame = output.frame], lines 242-247.
    [output.frame] is [None] until the first [write]; [len(None)] raises. *)
Definition part (frame : option bytes) : list instr :=
  [ wfile_write (b ("--FRAME" +:+ CRLF));
    send_header "Content-Type" "image/jpeg" ] ++
  match frame with
  | Some buf =>
      [ send_header "Content-Length" (str (length buf));
        end_headers;
        wfile_write buf;
        wfile_write (b CRLF) ]
  | None => [ raise TypeError ]
  end.

Section Handler.

Variable USERNAME PASSWORD : pystr.
Variable b64decode : string → result bytes.
Variable decode_utf8 : bytes → result pystr.
(** [html.encode()], the landing page of lines 69-225. *)
Variable html : bytes.

(** [do_GET] up to the point where it returns or enters the streaming
    loop: the calls it makes, and whether the loop follows. *)
Definition do_GET (r : request) : list instr * bool :=
  if negb (check_auth USERNAME PASSWORD b64decode decode_utf8 (Authorization r))
  then (send_auth_request, false)
  else if String.eqb (path r) "/" || String.eqb (path r) "/index.html"
  then ([ send_response 200; send_header "Content-Type" "text/html";
          end_headers; wfile_write html ], false)
  else if String.eqb (path r) "/stream.mjpg"
  then (stream_head, true)
  else ([ send_error 404 ], false).

End Handler.

(** ** [StreamingOutput], the capture thread and the handler threads

    The global [output] object is one frame reference and one condition
    variable. The capture pipeline calls [output.write]; every handler that
    serves [/stream.mjpg] runs the loop of lines 237-247. The interleavings of
    these threads are the runs of a transition system whose steps are the
    statements of the source.

    [threading.Condition] is taken as documented: [wait()] releases the lock
    and blocks until a [notify_all()] issued while it is parked, then takes
    the lock again before it returns; [notify_all()] is called with the lock
    held. Any number of handlers may be alive at once. [StreamingServer]
    derives from the plain [HTTPServer], which serves one connection at a
    time; its runs are among those considered here. *)

Inductive thread :=
| Capture
| Handler (i : nat).

(** Where the capture thread stands in [StreamingOutput.write]. *)
Inductive writer :=
| Idle
| Entered (buf : bytes)
| Assigned
| Notified.

(** How a handler left [do_GET]: by [return], through the [except] clause of
    line 248, or with an exception that [do_GET] does not catch. *)
Inductive exit :=
| Returned
| Disconnected
| Propagated.

(** Where a handler stands in [do_GET]. [Reply todo stream] is the
    straight-line code before the [try]; [Acquire] to [Holding] are lines
    238-240, [Waiting] being parked inside [wait()] with the lock released and
    [Woken] notified but not yet holding the lock again; [Part] is lines
    242-247. *)
Inductive control :=
| Reply (todo : list instr) (stream : bool)
| Acquire
| Locked
| Waiting
| Woken
| Relocked
| Holding (frame : option bytes)
| Part (frame : option bytes) (todo : list instr)
| Closed (how : exit).

(** A handler thread. [sent] lists the calls it has completed on its
    connection, oldest first. [entered] and [seen] are history variables, which
    no transition reads: the number of frames published when the handler last
    called [wait()], and the frames it has read out of [output.frame] with the
    number of frames published at that moment, newest first. *)
Record session := {
  req : request;
  ctl : control;
  sent : list instr;
  entered : nat;
  seen : list (nat * option bytes)
}.

(** [frame] is [output.frame], [owner] the holder of the lock of
    [output.condition]. [published] is a history variable: the buffers assigned
    by [write], oldest first. *)
Record state := {
  frame : option bytes;
  owner : option thread;
  capture : writer;
  sessions : list session;
  published : list bytes
}.

Definition set_ctl (c : control) (ss : session) : session :=
  {| req := req ss; ctl := c; sent := sent ss;
     entered := entered ss; seen := seen ss |}.

Definition do (op : instr) (c : control) (ss : session) : session :=
  {| req := req ss; ctl := c; sent := sent ss ++ [op];
     entered := entered ss; seen := seen ss |}.

(** The frame counter of the specification: how many frames were published. *)
Definition version (s : state) : nat := length (published s).

(** The cursor of the specification: the version of the frame the handler
    read last, 0 before the first. *)
Definition cursor (ss : session) : nat :=
  match seen ss with
  | [] => 0
  | (v, _) :: _ => v
  end.

(** [notify_all()] releases every thread parked in [wait()]. *)
Definition wake (ss : session) : session :=
  match ctl ss with
  | Waiting => set_ctl Woken ss
  | _ => ss
  end.

Definition notify_all (l : list session) : list session := map wake l.

(** [output.write(buf)]: entering the [with] block takes the lock. *)
Definition write (buf : bytes) (s : state) : option state :=
  match capture s, owner s with
  | Idle, None =>
      Some {| frame := frame s; owner := Some Capture; capture := Entered buf;
              sessions := sessions s; published := published s |}
  | _, _ => None
  end.

(** The statements of [write] inside the [with] block, and leaving it. *)
Definition write_next (s : state) : option state :=
  match capture s with
  | Idle => None
  | Entered buf =>
      Some {| frame := Some buf; owner := owner s; capture := Assigned;
              sessions := sessions s; published := published s ++ [buf] |}
  | Assigned =>
      Some {| frame := frame s; owner := owner s; capture := Notified;
              sessions := notify_all (sessions s); published := published s |}
  | Notified =>
      Some {| frame := frame s; owner := None; capture := Idle;
              sessions := sessions s; published := published s |}
  end.

(** The next statement of handler [i], when it completes. The result is the
    handler and the owner of the lock afterwards; [None] when the handler is
    blocked or has left [do_GET]. *)
Definition handler_next (s : state) (i : nat) (ss : session)
    : option (session * option thread) :=
  match ctl ss with
  | Reply (raise _ :: _) _ => Some (set_ctl (Closed Propagated) ss, owner s)
  | Reply (op :: todo) stream => Some (do op (Reply todo stream) ss, owner s)
  | Reply [] true => Some (set_ctl Acquire ss, owner s)
  | Reply [] false => Some (set_ctl (Closed Returned) ss, owner s)
  | Acquire =>
      match owner s with
      | None => Some (set_ctl Locked ss, Some (Handler i))
      | Some _ => None
      end
  | Locked =>
      Some ({| req := req ss; ctl := Waiting; sent := sent ss;
               entered := version s; seen := seen ss |}, None)
  | Waiting => None
  | Woken =>
      match owner s with
      | None => Some (set_ctl Relocked ss, Some (Handler i))
      | Some _ => None
      end
  | Relocked =>
      Some ({| req := req ss; ctl := Holding (frame s); sent := sent ss;
               entered := entered ss;
               seen := (version s, frame s) :: seen ss |}, owner s)
  | Holding f => Some (set_ctl (Part f (part f)) ss, None)
  | Part f (raise _ :: _) => Some (set_ctl (Closed Disconnected) ss, owner s)
  | Part f (op :: todo) => Some (do op (Part f todo) ss, owner s)
  | Part f [] => Some (set_ctl Acquire ss, owner s)
  | Closed _ => None
  end.

(** The next statement of a handler writes to the socket and the write raises
    (broken pipe, connection reset): outside the [try] the exception leaves
    [do_GET], inside it the [except] clause ends the loop. *)
Definition handler_break (ss : session) : option session :=
  match ctl ss with
  | Reply (op :: _) _ =>
      if writes op then Some (set_ctl (Closed Propagated) ss) else None
  | Part _ (op :: _) =>
      if writes op then Some (set_ctl (Closed Disconnected) ss) else None
  | _ => None
  end.

Inductive action :=
| Accept (r : request)
| Step (i : nat)
| Break (i : nat)
| Write (buf : bytes)
| WriteNext.

Section Machine.

Variable USERNAME PASSWORD : pystr.
Variable b64decode : string → result bytes.
Variable decode_utf8 : bytes → result pystr.
Variable html : bytes.

(** A handler created for request [r], about to run [do_GET]. *)
Definition accept (r : request) : session :=
  let '(script, stream) := do_GET USERNAME PASSWORD b64decode decode_utf8 html r in
  {| req := r; ctl := Reply script stream; sent := []; entered := 0; seen := [] |}.

(** One step of the system; [None] when the action is not enabled. *)
Definition exec (a : action) (s : state) : option state :=
  match a with
  | Accept r =>
      Some {| frame := frame s; owner := owner s; capture := capture s;
              sessions := sessions s ++ [accept r]; published := published s |}
  | Step i =>
      ss ← sessions s !! i;
      '(ss', o) ← handler_next s i ss;
      Some {| frame := frame s; owner := o; capture := capture s;
              sessions := <[i := ss']> (sessions s); published := published s |}
  | Break i =>
      ss ← sessions s !! i;
      ss' ← handler_break ss;
      Some {| frame := frame s; owner := owner s; capture := capture s;
              sessions := <[i := ss']> (sessions s); published := published s |}
  | Write buf => write buf s
  | WriteNext => write_next s
  end.

Fixpoint run (sched : list action) (s : state) : option state :=
  match sched with
  | [] => Some s
  | a :: rest => s' ← exec a s; run rest s'
  end.

(** The process after [output = StreamingOutput()]. *)
Definition init : state :=
  {| frame := None; owner := None; capture := Idle; sessions := []; published := [] |}.

Definition reachable (s : state) : Prop := ∃ sched, run sched init = Some s.

End Machine.

(** One complete call [output.write(buf)]. *)
Definition publish (buf : bytes) : list action := [Write buf; WriteNext; WriteNext; WriteNext].

Definition publish_all (bufs : list bytes) : list action := flat_map publish bufs.

(** ** What the calls put on the wire

    [BaseHTTPRequestHandler] keeps the header lines in [_headers_buffer] until
    [end_headers] joins and writes them; [wfile] is unbuffered.
    [send_response], [send_header] and [end_headers] do so only when
    [self.request_version != 'HTTP/0.9']. [parse_request] gives the version
    [HTTP/0.9] to a request line of two words, [GET /stream.mjpg] say, whose
    headers are read all the same: on such a connection no status line and no
    header is buffered or written, whatever the handler calls. *)

Record connection := {
  request_version : string;
  _headers_buffer : list bytes;
  wire : bytes
}.

(** The test [self.request_version != 'HTTP/0.9']. *)
Definition with_headers (c : connection) : bool :=
  negb (String.eqb (request_version c) "HTTP/0.9").

Section Wire.

(** What [send_response(code)] buffers: the status line and the [Server] and
    [Date] headers. What [send_error(code)] does after its own call of
    [send_response(code)]: the header lines it buffers, and the body it
    writes once the headers are ended. *)
Variable response_head : nat → list bytes.
Variable error_response : nat → list bytes * bytes.

Definition perform (c : connection) (op : instr) : connection :=
  match op with
  | send_response code =>
      if with_headers c then
        {| request_version := request_version c;
           _headers_buffer := _headers_buffer c ++ response_head code;
           wire := wire c |}
      else c
  | send_header keyword value =>
      if with_headers c then
        {| request_version := request_version c;
           _headers_buffer := _headers_buffer c ++ [b (keyword +:+ ": " +:+ value +:+ CRLF)];
           wire := wire c |}
      else c
  | end_headers =>
      if with_headers c then
        {| request_version := request_version c;
           _headers_buffer := [];
           wire := wire c ++ concat (_headers_buffer c ++ [b CRLF]) |}
      else c
  | wfile_write data =>
      {| request_version := request_version c;
         _headers_buffer := _headers_buffer c;
         wire := wire c ++ data |}
  | send_error code =>
      let '(lines, body) := error_response code in
      if with_headers c then
        {| request_version := request_version c;
           _headers_buffer := [];
           wire := wire c ++
                   concat (_headers_buffer c ++ response_head code ++ lines ++ [b CRLF]) ++
                   body |}
      else
        {| request_version := request_version c;
           _headers_buffer := _headers_buffer c;
           wire := wire c ++ body |}
  | raise _ => c
  end.

Definition transmit (ops : list instr) (c : connection) : connection :=
  fold_left perform ops c.

End Wire.



(** ** The [__main__] block

    The calls of lines 260-281 in order. Each call either returns or raises,
    as the world decides; the trace lists the calls that were made. *)

Inductive site :=
| Picamera2
| create_video_configuration
| configure
| StreamingOutput
| JpegEncoder
| FileOutput
| start_recording
| StreamingServer
| print
| serve_forever
| stop_recording
| stop.

(** The outcome of the calls, by call site: the calls made at one site have
    the same outcome, so the five calls of [print] return or raise alike. *)
Definition world := site → option exn.

Definition proc (A : Type) := list site → list site * result A.

Definition ret {A} (a : A) : proc A := fun t => (t, Return a).

Definition seq {A B} (m : proc A) (k : proc B) : proc B :=
  fun t =>
    match m t with
    | (t', Return _) => k t'
    | (t', Raise e) => (t', Raise e)
    end.

Declare Scope proc_scope.
Delimit Scope proc_scope with proc.
Bind Scope proc_scope with proc.
Notation "m ;; k" := (seq m k)
  (at level 100, k at level 200, right associativity) : proc_scope.

Definition call (w : world) (c : site) : proc unit :=
  fun t =>
    match w c with
    | None => (t ++ [c], Return tt)
    | Some e => (t ++ [c], Raise e)
    end.

(** [try: body except KeyboardInterrupt: handler finally: cleanup]. *)
Definition try_finally (body handler cleanup : proc unit) : proc unit :=
  fun t =>
    let '(t1, r1) :=
      match body t with
      | (t', Raise KeyboardInterrupt) => handler t'
      | other => other
      end in
    match cleanup t1 with
    | (t2, Return _) => (t2, r1)
    | (t2, Raise e) => (t2, Raise e)
    end.

Definition main (w : world) : proc unit :=
 (call w Picamera2 ;;
  call w create_video_configuration ;;
  call w configure ;;
  call w StreamingOutput ;;
  call w JpegEncoder ;;
  call w FileOutput ;;
  call w start_recording ;;
  try_finally
    (call w StreamingServer ;;
     call w print ;; call w print ;; call w print ;; call w print ;;
     call w serve_forever)
    (call w print)
    (call w stop_recording ;; call w stop))%proc.

(** The exit status of the interpreter: 0 when the script ends, non-zero
    when an exception reaches the top level. What the interpreter does after
    the script has ended is not part of it: a final flush of [sys.stdout]
    that fails turns the status into 120. *)
Definition exit_status (r : result unit) : nat :=
  match r with
  | Return _ => 0
  | Raise KeyboardInterrupt => 130
  | Raise _ => 1
  end.

(** The calls that bring up the capture pipeline, lines 260-268. *)
Definition capture_setup : list site :=
  [Picamera2; create_video_configuration; configure; JpegEncoder; FileOutput; start_recording].

(** ** A concrete configuration

    The credentials of the specification's example with the library decoders,
    and a few requests, frames and schedules to run the definitions on. *)

Module Demo.

Definition check : option string → bool :=
  check_auth (u "admin") (u "secret") PyLib.b64decode PyLib.decode_utf8.

(** The credentials [admin] / [pa:ss:word], the password with two colons. *)
Definition check_colon : option string → bool :=
  check_auth (u "admin") (u "pa:ss:word") PyLib.b64decode PyLib.decode_utf8.

Definition page : bytes := b "<!DOCTYPE html>".

Definition get : request → list instr * bool :=
  do_GET (u "admin") (u "secret") PyLib.b64decode PyLib.decode_utf8 page.

Definition go : list action → state → option state :=
  run (u "admin") (u "secret") PyLib.b64decode PyLib.decode_utf8 page.

(** [admin:secret] *)
Definition good_header : string := "Basic YWRtaW46c2VjcmV0".

Definition stream_request : request :=
  {| Authorization := Some good_header; path := "/stream.mjpg" |}.

Definition anonymous_request : request :=
  {| Authorization := None; path := "/stream.mjpg" |}.

(** [admin:Secret] on the landing page. *)
Definition wrong_password_request : request :=
  {| Authorization := Some "Basic YWRtaW46U2VjcmV0"; path := "/" |}.

Definition frameA : bytes := b "AAAA".
Definition frameB : bytes := b "BB".
Definition frameC : bytes := b "C".

(** A client connects, gets the response head and parks in [wait()]. *)
Definition to_waiting : list action := Accept stream_request :: repeat (Step 0) 9.

(** Then a frame is published and the handler takes the lock again. *)
Definition to_relocked : list action := to_waiting ++ publish frameA ++ [Step 0].

(** Then it reads the frame, leaves the [with] block and sends the part up
    to the frame body. *)
Definition to_body : list action := to_relocked ++ repeat (Step 0) 6.

Definition state_after (sched : list action) : state :=
  Eval vm_compute in default init (go sched init).

(** Then it sends the frame and the line terminator and is back at the top
    of the loop. *)
Definition to_delivered : list action := to_body ++ repeat (Step 0) 3.

(** Two frames are published while the handler is sending the first one;
    it then finishes the part and calls [wait()] again. *)
Definition to_missed : list action :=
  to_body ++ publish_all [frameB; frameC] ++ repeat (Step 0) 5.


Definition waiting_state : state := Eval vm_compute in state_after to_waiting.
Definition relocked_state : state := Eval vm_compute in state_after to_relocked.
Definition body_state : state := Eval vm_compute in state_after to_body.
Definition delivered_state : state := Eval vm_compute in state_after to_delivered.
Definition missed_state : state := Eval vm_compute in state_after to_missed.

(** The state after the write of the frame body has failed. *)
Definition broken_state : state :=
  Eval vm_compute in default init (go [Break 0] body_state).

Definition handler_of (s : state) : session :=
  default (accept (u "admin") (u "secret") PyLib.b64decode PyLib.decode_utf8 page
             anonymous_request)
          (sessions s !! 0).

Definition waiting_handler : session := Eval vm_compute in handler_of waiting_state.
Definition relocked_handler : session := Eval vm_compute in handler_of relocked_state.
Definition body_handler : session := Eval vm_compute in handler_of body_state.
Definition delivered_handler : session := Eval vm_compute in handler_of delivered_state.
Definition missed_handler : session := Eval vm_compute in handler_of missed_state.

Definition reach : state → Prop :=
  reachable (u "admin") (u "secret") PyLib.b64decode PyLib.decode_utf8 page.



(** A world in which the port is taken: the server constructor raises. *)
Definition port_in_use : world :=
  fun c => match c with StreamingServer => Some OSError | _ => None end.

(** A world in which the camera is busy: [start_recording] raises. *)
Definition camera_busy : world :=
  fun c => match c with start_recording => Some RuntimeError | _ => None end.

(** A password of three characters whose UTF-8 forms take two, three and
    four octets: [U+00E9], [U+20AC] and [U+1F600]. *)
Definition accented : pystr := [233; 8364; 128512]%N.

End Demo.

(** ** Invariants of the runs *)

(** The control points at which the handler owns the lock of
    [output.condition]: inside the [with] block of lines 238-240, but not
    while it is inside [wait()] (parked, or notified and waiting for the lock),
    which has released the lock. *)
Definition holds_lock (c : control) : bool :=
  match c with
  | Locked | Relocked | Holding _ => true
  | _ => false
  end.

(** The control points from the call of [wait()] to the statement after it. *)
Definition in_wait (c : control) : bool :=
  match c with
  | Waiting | Woken | Relocked => true
  | _ => false
  end.


(** [output.frame] is the last buffer assigned, and the lock has the owner
    that the control points say. *)
Definition lock_inv (s : state) : Prop :=
  frame s = last (published s) ∧
  (owner s = Some Capture ↔ capture s ≠ Idle) ∧
  ∀ i, owner s = Some (Handler i) ↔
       ∃ ss, sessions s !! i = Some ss ∧ holds_lock (ctl ss) = true.

(** How one statement of handler [i] moves the lock: not at all, from free
    to the handler, or from the handler to free. *)
Definition lock_move (s : state) (i : nat) (ss ss' : session) (o : option thread) : Prop :=
  (holds_lock (ctl ss') = holds_lock (ctl ss) ∧ o = owner s) ∨
  (holds_lock (ctl ss) = false ∧ owner s = None ∧
   holds_lock (ctl ss') = true ∧ o = Some (Handler i)) ∨
  (holds_lock (ctl ss) = true ∧ holds_lock (ctl ss') = false ∧ o = None).

(** A handler that was notified entered [wait()] before the last frame was
    published. *)
Definition wait_inv (s : state) (ss : session) : Prop :=
  entered ss ≤ version s ∧
  match ctl ss with
  | Waiting => capture s = Assigned → entered ss < version s
  | Woken | Relocked => entered ss < version s
  | _ => True
  end.

(** Versions strictly decrease along a list that starts with the newest. *)
Fixpoint newest_first (l : list (nat * option bytes)) : Prop :=
  match l with
  | [] => True
  | vf :: rest => Forall (λ old, old.1 < vf.1) rest ∧ newest_first rest
  end.

(** The frames a handler has read are the published ones, each with its
    version, and none is newer than the last call of [wait()] allows. *)
Definition seen_inv (s : state) (ss : session) : Prop :=
  newest_first (seen ss) ∧
  Forall (λ vf, 0 < vf.1 ∧
                vf.1 ≤ (if in_wait (ctl ss) then entered ss else version s) ∧
                vf.2 = published s !! (vf.1 - 1))
         (seen ss).

Definition handler_inv (s : state) (ss : session) : Prop :=
  wait_inv s ss ∧ seen_inv s ss.

Definition inv (s : state) : Prop :=
  lock_inv s ∧ Forall (handler_inv s) (sessions s).

(** The frames read, oldest first, and the calls that send them. *)
Definition frames_of (l : list (nat * option bytes)) : list (option bytes) :=
  rev (map snd l).

Definition parts (frames : list (option bytes)) : list instr :=
  concat (map part frames).

(** What a handler has sent is what [do_GET] prescribes for its request,
    followed by one part per frame read. *)
Definition sent_inv (script : list instr) (stream : bool) (ss : session) : Prop :=
  match ctl ss with
  | Reply todo st => st = stream ∧ sent ss ++ todo = script ∧ seen ss = []
  | Acquire | Locked | Waiting | Woken | Relocked =>
      stream = true ∧ sent ss = script ++ parts (frames_of (seen ss))
  | Holding f =>
      stream = true ∧
      ∃ v rest, seen ss = (v, f) :: rest ∧
                sent ss = script ++ parts (frames_of rest)
  | Part f todo =>
      stream = true ∧
      ∃ v rest, seen ss = (v, f) :: rest ∧
                sent ss ++ todo = script ++ parts (frames_of rest) ++ part f
  | Closed Returned => stream = false ∧ sent ss = script ∧ seen ss = []
  | Closed Propagated => seen ss = [] ∧ ∃ op todo, sent ss ++ op :: todo = script
  | Closed Disconnected =>
      stream = true ∧
      ∃ v f rest op todo,
        seen ss = (v, f) :: rest ∧
        sent ss ++ op :: todo = script ++ parts (frames_of rest) ++ part f
  end.

Section Invariants.

Variable USERNAME PASSWORD : pystr.
Variable b64decode : string → result bytes.
Variable decode_utf8 : bytes → result pystr.
Variable html : bytes.

Definition log_inv (ss : session) : Prop :=
  let '(script, stream) := do_GET USERNAME PASSWORD b64decode decode_utf8 html (req ss) in
  sent_inv script stream ss.

End Invariants.


(** The control points outside the streaming loop. *)
Definition answering (c : control) : bool :=
  match c with
  | Reply _ _ | Closed _ => true
  | _ => false
  end.

(** A connection on which nothing was buffered or written yet, for a request
    line of the given version. *)
Definition fresh (version : string) : connection :=
  {| request_version := version; _headers_buffer := []; wire := [] |}.

(** The boundary line and the line terminator that the loop writes. *)
Definition boundary : bytes := b ("--FRAME" +:+ CRLF).
Definition terminator : bytes := b CRLF.

(** ** What a client presents

    The header of RFC 7617 for a user name and a password: the UTF-8 octets
    of the two joined by a colon, written in base64 after the word [Basic].
    This is the other end of the connection, not code of the server; it is
    what [check_auth] is there to recognise. *)

Module Client.

(** The digit for a value below 64. *)
Definition b64_char (d : N) : ascii :=
  if (d <? 26)%N then ascii_of_N (d + 65)
  else if (d <? 52)%N then ascii_of_N (d + 71)
  else if (d <? 62)%N then ascii_of_N (d - 4)
  else if (d =? 62)%N then "+"%char
  else "/"%char.

Fixpoint b64encode (data : bytes) : list ascii :=
  match data with
  | [] => []
  | x :: rest1 =>
      let a := Byte.to_N x in
      match rest1 with
      | [] => [b64_char (a / 4); b64_char (a mod 4 * 16); "="%char; "="%char]
      | y :: rest2 =>
          let b := Byte.to_N y in
          match rest2 with
          | [] =>
              [b64_char (a / 4); b64_char (a mod 4 * 16 + b / 16);
               b64_char (b mod 16 * 4); "="%char]
          | z :: rest =>
              let c := Byte.to_N z in
              b64_char (a / 4) :: b64_char (a mod 4 * 16 + b / 16) ::
              b64_char (b mod 16 * 4 + c / 64) :: b64_char (c mod 64) ::
              b64encode rest
          end
      end
  end%N.

(** The code points that text can hold and UTF-8 can carry: all but the
    surrogates, up to [U+10FFFF]. *)
Definition scalar (cp : codepoint) : bool :=
  ((cp <? 55296) || ((57343 <? cp) && (cp <=? 1114111)))%N.

Definition encode_codepoint (cp : codepoint) : bytes :=
  (if cp <? 128 then [PyLib.byte_of cp]
   else if cp <? 2048 then
     [PyLib.byte_of (192 + cp / 64); PyLib.byte_of (128 + cp mod 64)]
   else if cp <? 65536 then
     [PyLib.byte_of (224 + cp / 4096); PyLib.byte_of (128 + cp / 64 mod 64);
      PyLib.byte_of (128 + cp mod 64)]
   else
     [PyLib.byte_of (240 + cp / 262144); PyLib.byte_of (128 + cp / 4096 mod 64);
      PyLib.byte_of (128 + cp / 64 mod 64); PyLib.byte_of (128 + cp mod 64)])%N.

Definition encode_utf8 (s : pystr) : bytes := flat_map encode_codepoint s.

Definition basic_header (user pass : pystr) : string :=
  "Basic " +:+ string_of_list_ascii (b64encode (encode_utf8 (user ++ COLON :: pass))).

End Client.

(** The numbers below [n], to check a property of octets by running it. *)
Definition below (n : nat) : list N := map N.of_nat (List.seq 0 n).

(** ** Further notions for the start-up sequence and the routing *)

(** The calls of lines 260-268, before the [try] block is entered. *)
Definition before_try : list site :=
  [Picamera2; create_video_configuration; configure; StreamingOutput;
   JpegEncoder; FileOutput; start_recording].

Definition site_eqb (x y : site) : bool :=
  match x, y with
  | Picamera2, Picamera2
  | create_video_configuration, create_video_configuration
  | configure, configure
  | StreamingOutput, StreamingOutput
  | JpegEncoder, JpegEncoder
  | FileOutput, FileOutput
  | start_recording, start_recording
  | StreamingServer, StreamingServer
  | print, print
  | serve_forever, serve_forever
  | stop_recording, stop_recording
  | stop, stop => true
  | _, _ => false
  end.

(** How many times a call was made. *)
Definition calls (c : site) (t : list site) : nat :=
  length (List.filter (site_eqb c) t).

(** The answer of [do_GET] to an unknown path, line 252. *)
Definition not_found : list instr * bool := ([send_error 404], false).

(** [self.path] is not the request target as sent: [parse_request] of
    [http.server] ends with
    [if self.path.startswith('//'): self.path = '/' + self.path.lstrip('/')],
    so that a target which begins with two or more slashes reaches [do_GET]
    with one. *)
Fixpoint lstrip (c : ascii) (s : string) : string :=
  match s with
  | String x s' => if Ascii.eqb x c then lstrip c s' else s
  | EmptyString => EmptyString
  end.

Definition request_path (target : string) : string :=
  match target with
  | String c1 (String c2 _) =>
      if Ascii.eqb c1 "/" && Ascii.eqb c2 "/" then String "/" (lstrip "/" target)
      else target
  | _ => target
  end.

(** The request that [do_GET] sees for a request target and an
    [Authorization] header. *)
Definition parsed (header : option string) (target : string) : request :=
  {| Authorization := header; path := request_path target |}.

(** A run of slashes. *)
Fixpoint slashes (n : nat) : string :=
  match n with
  | 0 => EmptyString
  | S n' => String "/" (slashes n')
  end.

(** ** The server loop

    [StreamingServer] (lines 254-256) derives from [HTTPServer], which is
    [socketserver.TCPServer] without [ThreadingMixIn]: [serve_forever()]
    (line 276) runs the handler of a connection itself, and accepts the next
    connection when that handler has left [do_GET], by returning or by
    raising. [daemon_threads] is read by [ThreadingMixIn] only. The capture
    thread of [start_recording] runs beside it. *)

Definition closed (c : control) : bool :=
  match c with
  | Closed _ => true
  | _ => false
  end.

(** [serve_forever] is between two connections. *)
Definition idle (s : state) : bool :=
  forallb (λ ss, closed (ctl ss)) (sessions s).

Section Server.

Variable USERNAME PASSWORD : pystr.
Variable b64decode : string → result bytes.
Variable decode_utf8 : bytes → result pystr.
Variable html : bytes.

(** A step of the process as [serve_forever] schedules it: a connection is
    accepted only between two connections. *)
Definition serve (a : action) (s : state) : option state :=
  match a with
  | Accept _ =>
      if idle s then exec USERNAME PASSWORD b64decode decode_utf8 html a s
      else None
  | _ => exec USERNAME PASSWORD b64decode decode_utf8 html a s
  end.

Fixpoint serve_run (sched : list action) (s : state) : option state :=
  match sched with
  | [] => Some s
  | a :: rest => s' ← serve a s; serve_run rest s'
  end.

Definition served (s : state) : Prop := ∃ sched, serve_run sched init = Some s.

End Server.

(** ** Checks run over all octets

    The facts about six-bit digits and octets that the round trip of a
    credential through base64 rests on, as boolean functions that are run on
    every digit and on every pair of octets. *)

Definition digit_ok (d : N) : bool :=
  negb (Ascii.eqb (Client.b64_char d) "=") &&
  match PyLib.b64_value (Client.b64_char d) with
  | Some v => N.eqb v d
  | None => false
  end &&
  (N_of_ascii (Client.b64_char d) <? 128)%N.

Definition pair_ok (a b : N) : bool :=
  ((N.lor (N.shiftl (a / 4) 2) (N.shiftr (a mod 4 * 16 + b / 16) 4) =? a) &&
   (N.land (a mod 4 * 16 + b / 16) 15 =? b / 16) &&
   (N.lor (N.shiftl (a / 16) 4) (N.shiftr (a mod 16 * 4 + b / 64) 2) =? a) &&
   (N.land (a mod 16 * 4 + b / 64) 3 =? b / 64) &&
   (N.lor (N.shiftl (a / 64) 6) (a mod 64) =? a) &&
   (N.lor (N.shiftl (a / 4) 2) (N.shiftr (a mod 4 * 16) 4) =? a) &&
   (N.lor (N.shiftl (a / 16) 4) (N.shiftr (a mod 16 * 4) 2) =? a) &&
   (a / 4 <? 64) && (a mod 4 * 16 + b / 16 <? 64) &&
   (a mod 16 * 4 + b / 64 <? 64) && (a mod 64 <? 64) &&
   (a mod 4 * 16 <? 64) && (a mod 16 * 4 <? 64))%N.

(** * Properties *)

(** ** Splitting at the first separator *)

Lemma split1_absent sep s : sep ∉ chars s → split1 sep s = [s].
Proof.
  induction s as [|c s IH]; simpl; intros Hs; [reflexivity|].
  apply not_elem_of_cons in Hs as [Hc Hs].
  destruct (Ascii.eqb_spec c sep) as [->|_]; [contradiction|].
  now rewrite (IH Hs).
Qed.

Lemma split1_first sep x y : sep ∉ chars x → split1 sep (x +:+ String sep y) = [x; y].
Proof.
  induction x as [|c x IH]; simpl; intros Hx.
  - now rewrite Ascii.eqb_refl.
  - apply not_elem_of_cons in Hx as [Hc Hx].
    destruct (Ascii.eqb_spec c sep) as [->|_]; [contradiction|].
    now rewrite (IH Hx).
Qed.

Lemma split1_shape sep s :
  ((sep ∉ chars s) ∧ split1 sep s = [s]) ∨
  (∃ x y, s = x +:+ String sep y ∧ (sep ∉ chars x) ∧ split1 sep s = [x; y]).
Proof.
  induction s as [|c s IH]; simpl.
  - left. split; [apply not_elem_of_nil | reflexivity].
  - destruct (Ascii.eqb_spec c sep) as [->|Hne].
    + right. exists EmptyString, s. repeat split. apply not_elem_of_nil.
    + destruct IH as [[Hs ->]|(x & y & -> & Hx & ->)].
      * left. split; [|reflexivity]. apply not_elem_of_cons. auto.
      * right. exists (String c x), y. repeat split.
        apply not_elem_of_cons. auto.
Qed.


Lemma usplit1_first sep (x y : pystr) : sep ∉ x → usplit1 sep (x ++ sep :: y) = [x; y].
Proof.
  induction x as [|c x IH]; simpl; intros Hx.
  - now rewrite N.eqb_refl.
  - apply not_elem_of_cons in Hx as [Hc Hx].
    destruct (N.eqb_spec c sep) as [->|_]; [contradiction|].
    now rewrite (IH Hx).
Qed.

Lemma usplit1_shape sep (s : pystr) :
  ((sep ∉ s) ∧ usplit1 sep s = [s]) ∨
  (∃ x y, s = x ++ sep :: y ∧ (sep ∉ x) ∧ usplit1 sep s = [x; y]).
Proof.
  induction s as [|c s IH]; simpl.
  - left. split; [apply not_elem_of_nil | reflexivity].
  - destruct (N.eqb_spec c sep) as [->|Hne].
    + right. exists [], s. repeat split. apply not_elem_of_nil.
    + destruct IH as [[Hs ->]|(x & y & -> & Hx & ->)].
      * left. split; [|reflexivity]. apply not_elem_of_cons. auto.
      * right. exists (c :: x), y. repeat split.
        apply not_elem_of_cons. auto.
Qed.

(** ** Lower-casing the scheme *)

Lemma lower_space s : " "%char ∈ chars s → " "%char ∈ chars (lower s).
Proof.
  induction s as [|c s IH]; simpl; intros H; [exact H|].
  apply elem_of_cons in H as [<-|H].
  - apply elem_of_cons. now left.
  - apply elem_of_cons. right. auto.
Qed.

Lemma basic_absent s : lower s = "basic" → " "%char ∉ chars s.
Proof.
  intros E H. apply lower_space in H. rewrite E in H.
  vm_compute in H.
  repeat (apply elem_of_cons in H as [H|H]; [discriminate H|]).
  now apply elem_of_nil in H.
Qed.

(** ** Credential validation *)

Section AuthProperties.

Variable USERNAME PASSWORD : pystr.
Variable b64decode : string → result bytes.
Variable decode_utf8 : bytes → result pystr.

Local Abbreviation check := (check_auth USERNAME PASSWORD b64decode decode_utf8).

Lemma append_not_empty x c y : String.eqb (x +:+ String c y) "" = false.
Proof. destruct x; reflexivity. Qed.

(** A header without a space has no credentials to unpack. *)
Lemma check_auth_one_word h : " "%char ∉ chars h → check (Some h) = false.
Proof.
  intros Hh. unfold check_auth.
  destruct (String.eqb h ""); [reflexivity|].
  unfold check_auth_try. now rewrite (split1_absent _ _ Hh).
Qed.

(** On [scheme credentials] the [try] block runs past the first unpacking. *)
Lemma check_auth_two_words scheme creds :
  " "%char ∉ chars scheme →
  check (Some (scheme +:+ String " " creds)) =
  if String.eqb (lower scheme) "basic"
  then try_except
         (let* raw := b64decode creds in
          let* decoded := decode_utf8 raw in
          let* (username, password) := unpack2 (usplit1 COLON decoded) in
          Return (pystr_eqb username USERNAME && pystr_eqb password PASSWORD))
         false
  else false.
Proof.
  intros Hs. unfold check_auth. rewrite append_not_empty.
  unfold check_auth_try. rewrite (split1_first _ _ _ Hs). simpl.
  now destruct (String.eqb (lower scheme) "basic").
Qed.

Lemma pystr_eqb_true x y : pystr_eqb x y = true ↔ x = y.
Proof. unfold pystr_eqb. apply bool_decide_eq_true. Qed.

(** The only headers that validate. *)
Lemma check_auth_true h :
  check h = true ↔
  ∃ scheme creds raw,
    h = Some (scheme +:+ String " " creds) ∧
    lower scheme = "basic" ∧
    b64decode creds = Return raw ∧
    decode_utf8 raw = Return (USERNAME ++ COLON :: PASSWORD) ∧
    COLON ∉ USERNAME.
Proof.
  split.
  - destruct h as [h|]; [|discriminate].
    destruct (split1_shape " " h) as [[Hh _]|(scheme & creds & -> & Hs & _)].
    + now rewrite (check_auth_one_word _ Hh).
    + rewrite (check_auth_two_words _ _ Hs).
      destruct (String.eqb_spec (lower scheme) "basic") as [Hl|]; [|discriminate].
      destruct (b64decode creds) as [raw|] eqn:Hraw; [|discriminate]. simpl.
      destruct (decode_utf8 raw) as [text|] eqn:Htext; [|discriminate]. simpl.
      destruct (usplit1_shape COLON text) as [[_ ->]|(x & y & -> & Hx & ->)];
        [discriminate|]. simpl.
      intros H. apply andb_true_iff in H as [Hu Hp].
      apply pystr_eqb_true in Hu, Hp. subst x y.
      exists scheme, creds, raw. auto.
  - intros (scheme & creds & raw & -> & Hl & Hraw & Htext & Hu).
    rewrite (check_auth_two_words _ _ (basic_absent _ Hl)).
    rewrite Hl, Hraw. simpl. rewrite Htext. simpl.
    rewrite (usplit1_first _ _ _ Hu). simpl.
    apply andb_true_iff. split; now apply pystr_eqb_true.
Qed.


(** C10. The decoded text is split at its first colon only. When the user
    name has no colon, a Basic header carrying the user name, a colon and the
    password validates whatever colons the password contains, and whatever the
    case of the scheme's letters; everything after the first colon is what is
    compared with the password. A configured user name with a colon in it is
    matched by no header at all. *)
Theorem check_auth_first_colon :
  (∀ scheme creds raw,
     lower scheme = "basic" → COLON ∉ USERNAME →
     b64decode creds = Return raw →
     decode_utf8 raw = Return (USERNAME ++ COLON :: PASSWORD) →
     check (Some (scheme +:+ String " " creds)) = true) ∧
  (∀ scheme creds raw user pass,
     " "%char ∉ chars scheme → COLON ∉ user →
     b64decode creds = Return raw →
     decode_utf8 raw = Return (user ++ COLON :: pass) →
     check (Some (scheme +:+ String " " creds)) = true →
     user = USERNAME ∧ pass = PASSWORD) ∧
  (COLON ∈ USERNAME → ∀ h, check h = false) ∧
  lower "Basic" = "basic" ∧ lower "basic" = "basic" ∧ lower "BASIC" = "basic".
Proof.
  split; [|split; [|split; [|repeat split]]].
  - intros scheme creds raw Hl Hu Hraw Htext.
    apply check_auth_true. exists scheme, creds, raw. auto.
  - intros scheme creds raw user pass Hs Hu Hraw Htext.
    rewrite (check_auth_two_words _ _ Hs), Hraw. simpl. rewrite Htext. simpl.
    rewrite (usplit1_first _ _ _ Hu). simpl.
    destruct (String.eqb _ _); [|discriminate].
    intros E. apply andb_true_iff in E as [E1 E2].
    now apply pystr_eqb_true in E1, E2.
  - intros Hin h. apply not_true_is_false. intros E.
    apply check_auth_true in E as (_ & _ & _ & _ & _ & _ & _ & Hu).
    contradiction.
Qed.

End AuthProperties.

(** A character that is not in an explicit list. *)
Ltac absent :=
  let H := fresh in
  vm_compute; intros H;
  repeat (apply elem_of_cons in H as [H|H]; [discriminate H|]);
  now apply elem_of_nil in H.


Lemma check_auth_first_colon_witness :
  Demo.check_colon (Some "BASIC YWRtaW46cGE6c3M6d29yZA==") = true ∧
  (∀ h, check_auth (u "ad:min") (u "secret") PyLib.b64decode PyLib.decode_utf8 h = false).
Proof.
  split.
  - refine (proj1 (check_auth_first_colon (u "admin") (u "pa:ss:word")
              PyLib.b64decode PyLib.decode_utf8)
              "BASIC" "YWRtaW46cGE6c3M6d29yZA==" (b "admin:pa:ss:word") _ _ _ _);
      [reflexivity|absent|reflexivity|reflexivity].
  - refine (proj1 (proj2 (proj2 (check_auth_first_colon (u "ad:min") (u "secret")
              PyLib.b64decode PyLib.decode_utf8))) _).
    vm_compute. apply elem_of_cons. right. apply elem_of_cons. right.
    apply elem_of_cons. now left.
Defined.

(** ** Runs of the transition system *)

Lemma parts_snoc frames f : parts (frames ++ [f]) = parts frames ++ part f.
Proof.
  unfold parts. rewrite map_app, concat_app. simpl. now rewrite app_nil_r.
Qed.

Lemma frames_of_cons v f rest : frames_of ((v, f) :: rest) = frames_of rest ++ [f].
Proof. reflexivity. Qed.

Lemma wake_req ss : req (wake ss) = req ss.
Proof. unfold wake. now destruct (ctl ss). Qed.

Lemma handler_next_req s i ss ss' o :
  handler_next s i ss = Some (ss', o) → req ss' = req ss.
Proof.
  unfold handler_next. intros H.
  destruct (ctl ss) as [[|[] ?] []| | | | | | |? [|[] ?]|]; try destruct (owner s);
    inversion H; reflexivity.
Qed.

Lemma handler_break_req ss ss' : handler_break ss = Some ss' → req ss' = req ss.
Proof.
  unfold handler_break. intros H.
  destruct (ctl ss) as [[|op ?] ?| | | | | | |? [|op ?]|]; try discriminate;
    destruct (writes op); inversion H; reflexivity.
Qed.

Section MachineProperties.

Variable USERNAME PASSWORD : pystr.
Variable b64decode : string → result bytes.
Variable decode_utf8 : bytes → result pystr.
Variable html : bytes.

Local Abbreviation get := (do_GET USERNAME PASSWORD b64decode decode_utf8 html).
Local Abbreviation new := (accept USERNAME PASSWORD b64decode decode_utf8 html).
Local Abbreviation exec' := (exec USERNAME PASSWORD b64decode decode_utf8 html).
Local Abbreviation run' := (run USERNAME PASSWORD b64decode decode_utf8 html).
Local Abbreviation reachable' := (reachable USERNAME PASSWORD b64decode decode_utf8 html).
Local Abbreviation log_inv' := (log_inv USERNAME PASSWORD b64decode decode_utf8 html).

Lemma run_cons a l s : run' (a :: l) s = exec' a s ≫= run' l.
Proof. reflexivity. Qed.

Lemma run_app l1 l2 s : run' (l1 ++ l2) s = run' l1 s ≫= run' l2.
Proof.
  revert s. induction l1 as [|a l1 IH]; intros s; simpl; [reflexivity|].
  destruct (exec' a s) as [s'|]; simpl; [apply IH | reflexivity].
Qed.

(** Induction on the runs. *)
Lemma run_invariant (P : state → Prop) :
  (∀ a s s', P s → exec' a s = Some s' → P s') →
  ∀ sched s s', P s → run' sched s = Some s' → P s'.
Proof.
  intros Hstep sched. induction sched as [|a sched IH]; intros s s' Hs Hrun.
  - inversion Hrun. now subst.
  - simpl in Hrun. destruct (exec' a s) as [s1|] eqn:E; [|discriminate].
    simpl in Hrun. eapply IH; [|exact Hrun]. eapply Hstep; eauto.
Qed.

Lemma reachable_invariant (P : state → Prop) :
  P init →
  (∀ a s s', P s → exec' a s = Some s' → P s') →
  ∀ s, reachable' s → P s.
Proof.
  intros H0 Hstep s [sched Hrun].
  exact (run_invariant P Hstep sched init s H0 Hrun).
Qed.

(** A property of single handlers that every statement preserves holds of
    all handlers in every reachable state. *)
Lemma handlers_invariant (P : session → Prop) :
  (∀ r, P (new r)) →
  (∀ s i ss ss' o, P ss → handler_next s i ss = Some (ss', o) → P ss') →
  (∀ ss ss', P ss → handler_break ss = Some ss' → P ss') →
  (∀ ss, P ss → P (wake ss)) →
  ∀ s, reachable' s → Forall P (sessions s).
Proof.
  intros Hnew Hnext Hbreak Hwake.
  apply reachable_invariant; [constructor|].
  intros [r|i|i|buf|] s s' IH E; simpl in E.
  - inversion E; subst; simpl. apply Forall_app. split; [exact IH|].
    constructor; [apply Hnew | constructor].
  - destruct (sessions s !! i) as [ss|] eqn:Hi; [|discriminate]. simpl in E.
    destruct (handler_next s i ss) as [[ss' o]|] eqn:Hn; [|discriminate].
    inversion E; subst; simpl. apply Forall_insert; [exact IH|].
    eapply Hnext; [|exact Hn]. eapply Forall_lookup_1; eauto.
  - destruct (sessions s !! i) as [ss|] eqn:Hi; [|discriminate]. simpl in E.
    destruct (handler_break ss) as [ss'|] eqn:Hn; [|discriminate].
    inversion E; subst; simpl. apply Forall_insert; [exact IH|].
    eapply Hbreak; [|exact Hn]. eapply Forall_lookup_1; eauto.
  - unfold write in E. destruct (capture s), (owner s); inversion E; subst; exact IH.
  - unfold write_next in E. destruct (capture s); inversion E; subst; simpl;
      try exact IH.
    unfold notify_all. apply Forall_fmap. eapply Forall_impl; [exact IH|].
    intros ss Hss. apply Hwake, Hss.
Qed.

(** *** What a handler has sent *)

Lemma log_inv_new r : log_inv' (new r).
Proof.
  unfold log_inv, accept. destruct (get r) as [script stream] eqn:E. simpl.
  rewrite E. unfold sent_inv. simpl. auto.
Qed.

Lemma sent_inv_next script stream s i ss ss' o :
  sent_inv script stream ss → handler_next s i ss = Some (ss', o) →
  sent_inv script stream ss'.
Proof.
  unfold sent_inv, handler_next. intros H E.
  destruct (ctl ss) as [[|op todo] st| | | | | |f|f [|op todo]|[]] eqn:C.
  - destruct H as (-> & H & Hs). rewrite app_nil_r in H.
    destruct stream; inversion E; subst; simpl; rewrite ?Hs; simpl;
      rewrite ?app_nil_r; auto.
  - destruct H as (-> & H & Hs).
    destruct op; inversion E; subst; simpl; rewrite <- ?app_assoc; simpl; eauto.
  - destruct (owner s); inversion E; subst; simpl; auto.
  - inversion E; subst; simpl; auto.
  - discriminate.
  - destruct (owner s); inversion E; subst; simpl; auto.
  - inversion E; subst; simpl. destruct H as [-> H]. eauto.
  - inversion E; subst; simpl. destruct H as (-> & v & rest & Hs & H).
    split; [reflexivity|]. exists v, rest. split; [exact Hs|].
    rewrite H. now rewrite <- app_assoc.
  - inversion E; subst; simpl. destruct H as (-> & v & rest & Hs & H).
    split; [reflexivity|]. rewrite Hs, frames_of_cons, parts_snoc.
    now rewrite app_nil_r in H.
  - destruct H as (-> & v & rest & Hs & H).
    destruct op; inversion E; subst; simpl; (split; [reflexivity|]);
      try (exists v, rest; split; [exact Hs|]; rewrite <- app_assoc; exact H).
    exists v, f, rest, (raise e), todo. auto.
  - discriminate.
  - discriminate.
  - discriminate.
Qed.

Lemma sent_inv_break script stream ss ss' :
  sent_inv script stream ss → handler_break ss = Some ss' →
  sent_inv script stream ss'.
Proof.
  unfold sent_inv, handler_break. intros H E.
  destruct (ctl ss) as [[|op todo] st| | | | | |f|f [|op todo]|[]] eqn:C;
    try discriminate.
  - destruct H as (-> & H & Hs).
    destruct (writes op); inversion E; subst; simpl. eauto.
  - destruct H as (-> & v & rest & Hs & H).
    destruct (writes op); inversion E; subst; simpl.
    split; [reflexivity|]. exists v, f, rest, op, todo. auto.
Qed.

Lemma sent_inv_wake script stream ss :
  sent_inv script stream ss → sent_inv script stream (wake ss).
Proof.
  unfold wake. destruct (ctl ss) eqn:C; try (intros; assumption).
  unfold sent_inv. rewrite C. simpl. auto.
Qed.

(** In every reachable state, every handler has sent what [do_GET]
    prescribes for its request and one part per frame it has read. *)
Lemma log_inv_reachable s : reachable' s → Forall log_inv' (sessions s).
Proof.
  apply handlers_invariant.
  - apply log_inv_new.
  - intros s0 i ss ss' o H E. unfold log_inv in *.
    rewrite (handler_next_req _ _ _ _ _ E).
    destruct (get (req ss)). eapply sent_inv_next; eauto.
  - intros ss ss' H E. unfold log_inv in *.
    rewrite (handler_break_req _ _ E).
    destruct (get (req ss)). eapply sent_inv_break; eauto.
  - intros ss H. unfold log_inv in *. rewrite wake_req.
    destruct (get (req ss)). now apply sent_inv_wake.
Qed.

(** *** The lock *)

Lemma handler_next_lock s i ss ss' o :
  handler_next s i ss = Some (ss', o) → lock_move s i ss ss' o.
Proof.
  unfold handler_next, lock_move. intros E.
  destruct (ctl ss) as [[|[] ?] []| | | | | | |? [|[] ?]|] eqn:C;
    try destruct (owner s) eqn:O; inversion E; subst; simpl; auto 10.
Qed.

Lemma handler_break_lock s i ss ss' :
  handler_break ss = Some ss' → lock_move s i ss ss' (owner s).
Proof.
  unfold handler_break, lock_move. intros E.
  destruct (ctl ss) as [[|op ?] ?| | | | | | |? [|op ?]|] eqn:C; try discriminate;
    destruct (writes op); inversion E; subst; simpl; auto 10.
Qed.

Lemma lock_inv_move s i ss ss' o :
  lock_inv s → sessions s !! i = Some ss → lock_move s i ss ss' o →
  lock_inv {| frame := frame s; owner := o; capture := capture s;
              sessions := <[i := ss']> (sessions s); published := published s |}.
Proof.
  intros (Hf & Hc & Hl) Hi Hm. unfold lock_inv. simpl.
  assert (Hlen : i < length (sessions s)) by (eapply lookup_lt_Some; eauto).
  split; [exact Hf|].
  assert (Hme : holds_lock (ctl ss) = true → owner s = Some (Handler i)).
  { intros H. apply Hl. eauto. }
  assert (Hidle : owner s ≠ Some Capture → capture s = Idle).
  { intros H. destruct (capture s) eqn:C; [reflexivity|..];
      exfalso; apply H, Hc; discriminate. }
  destruct Hm as [[Hh ->]|[(Hh & Ho & Hh' & ->)|(Hh & Hh' & ->)]].
  - split; [exact Hc|]. intros j. rewrite Hl.
    destruct (decide (j = i)) as [->|Hne].
    + rewrite list_lookup_insert_eq by exact Hlen. rewrite Hi.
      split; intros (x & [= <-] & Hx); eexists; split; eauto; congruence.
    + now rewrite list_lookup_insert_ne by auto.
  - split.
    + split; [discriminate|]. intros H. apply Hc in H. congruence.
    + intros j. destruct (decide (j = i)) as [->|Hne].
      * rewrite list_lookup_insert_eq by exact Hlen. split; eauto.
      * rewrite list_lookup_insert_ne by auto. rewrite <- Hl, Ho.
        split; [intros [= ->]; contradiction | discriminate].
  - specialize (Hme Hh). split.
    + split; [discriminate|]. intros H. apply Hc in H. congruence.
    + intros j. destruct (decide (j = i)) as [->|Hne].
      * rewrite list_lookup_insert_eq by exact Hlen.
        split; [discriminate|]. intros (x & [= <-] & Hx). congruence.
      * rewrite list_lookup_insert_ne by auto. rewrite <- Hl, Hme.
        split; [discriminate|]. intros [= ->]. contradiction.
Qed.

Lemma holds_lock_wake ss : holds_lock (ctl (wake ss)) = holds_lock (ctl ss).
Proof. unfold wake. destruct (ctl ss) eqn:C; simpl; now rewrite ?C. Qed.

Lemma lock_inv_init : lock_inv init.
Proof.
  split; [reflexivity|]. split.
  - split; [discriminate|]. intros H. now contradiction H.
  - intros i. split; [discriminate|]. intros (ss & H & _). discriminate.
Qed.

Lemma lock_inv_exec a s s' : lock_inv s → exec' a s = Some s' → lock_inv s'.
Proof.
  intros Hinv E. destruct a as [r|i|i|buf|]; simpl in E.
  - inversion E; subst. destruct Hinv as (Hf & Hc & Hl).
    split; [exact Hf|]. split; [exact Hc|]. simpl. intros i. rewrite Hl.
    split.
    + intros (ss & Hi & Hh). exists ss. split; [|exact Hh].
      now apply lookup_app_l_Some.
    + intros (ss & Hi & Hh). exists ss. split; [|exact Hh].
      apply lookup_app_Some in Hi as [Hi|[_ Hi]]; [exact Hi|].
      destruct (i - length (sessions s)) as [|k]; [|discriminate Hi].
      simpl in Hi. inversion Hi; subst. unfold accept in Hh.
      destruct (get r). discriminate Hh.
  - destruct (sessions s !! i) as [ss|] eqn:Hi; [|discriminate]. simpl in E.
    destruct (handler_next s i ss) as [[ss' o]|] eqn:Hn; [|discriminate].
    inversion E; subst. eapply lock_inv_move; eauto using handler_next_lock.
  - destruct (sessions s !! i) as [ss|] eqn:Hi; [|discriminate]. simpl in E.
    destruct (handler_break ss) as [ss'|] eqn:Hn; [|discriminate].
    inversion E; subst. eapply lock_inv_move; eauto using handler_break_lock.
  - unfold write in E. destruct Hinv as (Hf & Hc & Hl).
    destruct (capture s) eqn:C; try discriminate.
    destruct (owner s) eqn:O; inversion E; subst.
    split; [exact Hf|]. simpl. split; [split; [discriminate|reflexivity]|].
    intros i. rewrite <- Hl. split; discriminate.
  - unfold write_next in E. destruct Hinv as (Hf & Hc & Hl).
    assert (Ho : capture s ≠ Idle → owner s = Some Capture) by apply Hc.
    destruct (capture s) eqn:C; inversion E; subst; simpl.
    + split; [simpl; now rewrite last_snoc|]. simpl. split; [|exact Hl].
      rewrite Ho by discriminate. split; [discriminate|reflexivity].
    + split; [exact Hf|]. simpl. split.
      * rewrite Ho by discriminate. split; [discriminate|reflexivity].
      * intros i. rewrite Hl. unfold notify_all. rewrite list_lookup_fmap.
        destruct (sessions s !! i) as [ss|]; simpl.
        -- split; intros (x & [= <-] & Hx); eexists; split; eauto;
             now rewrite ?holds_lock_wake in *.
        -- split; intros (x & [=] & _).
    + split; [exact Hf|]. simpl. split.
      * split; [discriminate|]. intros H. now contradiction H.
      * intros i. rewrite <- Hl, Ho by discriminate. split; discriminate.
Qed.

(** *** Versions of the frames read *)

Lemma handler_inv_ext s s' ss :
  published s' = published s → capture s' = capture s →
  handler_inv s ss → handler_inv s' ss.
Proof.
  unfold handler_inv, wait_inv, seen_inv, version. now intros -> ->.
Qed.

Lemma handler_inv_new s r : handler_inv s (new r).
Proof.
  unfold accept. destruct (get r) as [script stream].
  unfold handler_inv, wait_inv, seen_inv. simpl.
  repeat split; [lia|constructor].
Qed.

Lemma handler_inv_next s i ss ss' o :
  lock_inv s → sessions s !! i = Some ss → handler_inv s ss →
  handler_next s i ss = Some (ss', o) → handler_inv s ss'.
Proof.
  intros (Hf & Hc & Hl) Hi ((Hle & Hw) & (Hnf & Hall)) E.
  unfold handler_inv, wait_inv, seen_inv, handler_next in *.
  destruct (ctl ss) as [[|[] ?] []| | | | | | |? [|[] ?]|] eqn:C;
    try (destruct (owner s) eqn:O; [discriminate E|]);
    inversion E; subst; simpl in *;
    try (repeat split; solve [assumption | lia]).
  - (* Locked: the call of wait() *)
    repeat split; try assumption; [lia|].
    intros Ha. assert (Ho : owner s = Some (Handler i)).
    { apply Hl. exists ss. rewrite C. auto. }
    assert (Hcap : owner s = Some Capture) by (apply Hc; rewrite Ha; discriminate).
    congruence.
  - (* Relocked: the frame is read *)
    repeat split; try assumption; try lia.
    + eapply Forall_impl; [exact Hall|]. simpl. intros vf (_ & Hb & _).
      unfold version in *. lia.
    + constructor.
      * simpl. split; [lia|]. split; [lia|].
        rewrite Hf, last_lookup. unfold version. f_equal. lia.
      * eapply Forall_impl; [exact Hall|]. simpl. intros vf (H0 & Hb & Hp).
        repeat split; auto. lia.
Qed.

Lemma handler_inv_break s ss ss' :
  handler_inv s ss → handler_break ss = Some ss' → handler_inv s ss'.
Proof.
  intros ((Hle & Hw) & (Hnf & Hall)) E.
  unfold handler_inv, wait_inv, seen_inv, handler_break in *.
  destruct (ctl ss) as [[|op ?] ?| | | | | | |? [|op ?]|] eqn:C; try discriminate;
    destruct (writes op); inversion E; subst; simpl in *; auto.
Qed.

Lemma inv_init : inv init.
Proof. split; [apply lock_inv_init | constructor]. Qed.

Lemma inv_exec a s s' : inv s → exec' a s = Some s' → inv s'.
Proof.
  intros [Hlock Hall] E. split; [eapply lock_inv_exec; eauto|].
  destruct a as [r|i|i|buf|]; simpl in E.
  - inversion E; subst; simpl. apply Forall_app. split.
    + eapply Forall_impl; [exact Hall|]. intros ss. now apply handler_inv_ext.
    + constructor; [|constructor]. apply handler_inv_new.
  - destruct (sessions s !! i) as [ss|] eqn:Hi; [|discriminate]. simpl in E.
    destruct (handler_next s i ss) as [[ss' o]|] eqn:Hn; [|discriminate].
    inversion E; subst; simpl. apply Forall_insert.
    + eapply Forall_impl; [exact Hall|]. intros x. now apply handler_inv_ext.
    + apply (handler_inv_ext s); [reflexivity..|].
      eapply handler_inv_next; eauto. eapply Forall_lookup_1; eauto.
  - destruct (sessions s !! i) as [ss|] eqn:Hi; [|discriminate]. simpl in E.
    destruct (handler_break ss) as [ss'|] eqn:Hn; [|discriminate].
    inversion E; subst; simpl. apply Forall_insert.
    + eapply Forall_impl; [exact Hall|]. intros x. now apply handler_inv_ext.
    + apply (handler_inv_ext s); [reflexivity..|].
      eapply handler_inv_break; eauto. eapply Forall_lookup_1; eauto.
  - unfold write in E. destruct (capture s) eqn:C; try discriminate.
    destruct (owner s); inversion E; subst; simpl.
    eapply Forall_impl; [exact Hall|]. intros ss ((Hle & Hw) & Hseen).
    split; [|exact Hseen]. split; [exact Hle|].
    destruct (ctl ss); simpl in *; auto. discriminate.
  - unfold write_next in E. destruct (capture s) eqn:C; inversion E; subst; simpl.
    + (* the assignment: one more frame is published *)
      eapply Forall_impl; [exact Hall|].
      intros ss ((Hle & Hw) & (Hnf & Hseen)).
      unfold handler_inv, wait_inv, seen_inv, version in *. simpl.
      rewrite length_app. simpl. repeat split.
      * lia.
      * destruct (ctl ss); auto; lia.
      * exact Hnf.
      * eapply Forall_impl; [exact Hseen|]. simpl. intros vf (H0 & Hb & Hp).
        assert (vf.1 ≤ length (published s)) by (destruct (in_wait (ctl ss)); lia).
        repeat split; [exact H0| |].
        -- destruct (in_wait (ctl ss)); lia.
        -- rewrite Hp. symmetry. apply lookup_app_l. lia.
    + (* notify_all *)
      unfold notify_all. apply Forall_fmap. eapply Forall_impl; [exact Hall|].
      intros ss ((Hle & Hw) & (Hnf & Hseen)).
      unfold handler_inv, wait_inv, seen_inv, version, wake, compose in *. simpl.
      destruct (ctl ss) eqn:Hctl; simpl; rewrite ?Hctl; simpl; auto.
    + eapply Forall_impl; [exact Hall|]. intros ss ((Hle & Hw) & Hseen).
      split; [|exact Hseen]. split; [exact Hle|].
      destruct (ctl ss); simpl in *; auto. discriminate.
Qed.

Lemma inv_reachable s : reachable' s → inv s.
Proof. apply reachable_invariant; [apply inv_init | apply inv_exec]. Qed.

(** *** Publishing without any handler running *)

Lemma wake_wake ss : wake (wake ss) = wake ss.
Proof. unfold wake. destruct (ctl ss) eqn:C; simpl; now rewrite ?C. Qed.

Lemma notify_all_twice l : notify_all (notify_all l) = notify_all l.
Proof.
  unfold notify_all. rewrite map_map. apply map_ext. intros. apply wake_wake.
Qed.

Lemma run_publish buf s :
  capture s = Idle → owner s = None →
  run' (publish buf) s =
  Some {| frame := Some buf; owner := None; capture := Idle;
          sessions := notify_all (sessions s); published := published s ++ [buf] |}.
Proof.
  intros Hc Ho. unfold publish. simpl. unfold write. now rewrite Hc, Ho.
Qed.

Lemma run_publish_all bufs buf s :
  capture s = Idle → owner s = None →
  run' (publish_all (bufs ++ [buf])) s =
  Some {| frame := Some buf; owner := None; capture := Idle;
          sessions := notify_all (sessions s);
          published := published s ++ bufs ++ [buf] |}.
Proof.
  revert s. induction bufs as [|x bufs IH]; intros s Hc Ho.
  - now apply run_publish.
  - change (publish_all ((x :: bufs) ++ [buf]))
      with (publish x ++ publish_all (bufs ++ [buf])).
    rewrite run_app, (run_publish x s Hc Ho). simpl option_bind.
    unfold mbind, option_bind. rewrite IH by reflexivity. simpl.
    now rewrite notify_all_twice, <- app_assoc.
Qed.

Lemma exec_step s i ss ss' o :
  sessions s !! i = Some ss → handler_next s i ss = Some (ss', o) →
  exec' (Step i) s =
  Some {| frame := frame s; owner := o; capture := capture s;
          sessions := <[i := ss']> (sessions s); published := published s |}.
Proof. intros Hi Hn. simpl. rewrite Hi. simpl. now rewrite Hn. Qed.

(** A notified handler that finds the lock free takes it and reads
    [output.frame] as it is at that moment. *)
Lemma woken_reads_frame s i ss :
  sessions s !! i = Some ss → ctl ss = Woken → owner s = None →
  ∃ s2 ss2,
    run' [Step i; Step i] s = Some s2 ∧
    sessions s2 !! i = Some ss2 ∧
    ctl ss2 = Holding (frame s) ∧
    seen ss2 = (version s, frame s) :: seen ss.
Proof.
  intros Hi Hc Ho.
  assert (Hlen : i < length (sessions s)) by (eapply lookup_lt_Some; eauto).
  pose (ss1 := set_ctl Relocked ss).
  pose (s1 := {| frame := frame s; owner := Some (Handler i); capture := capture s;
                 sessions := <[i := ss1]> (sessions s); published := published s |}).
  assert (E1 : exec' (Step i) s = Some s1).
  { apply (exec_step s i ss); [exact Hi|].
    unfold handler_next. now rewrite Hc, Ho. }
  assert (Hi1 : sessions s1 !! i = Some ss1).
  { simpl. now apply list_lookup_insert_eq. }
  destruct (handler_next s1 i ss1) as [[ss2 o2]|] eqn:E2; [|discriminate E2].
  pose proof (exec_step _ _ _ _ _ Hi1 E2) as E2'.
  unfold handler_next in E2. simpl in E2. inversion E2; subst ss2 o2.
  eexists _, _. split.
  { rewrite run_cons, E1.
    change (Some s1 ≫= run' [Step i]) with (run' [Step i] s1).
    rewrite run_cons, E2'. reflexivity. }
  split; [simpl; apply list_lookup_insert_eq; now rewrite length_insert|].
  split; reflexivity.
Qed.

(** Every frame read is a published buffer. *)
Lemma seen_published s ss vf :
  handler_inv s ss → vf ∈ seen ss →
  0 < vf.1 ∧ vf.1 ≤ version s ∧
  ∃ buf, vf.2 = Some buf ∧ published s !! (vf.1 - 1) = Some buf.
Proof.
  intros ((Hle & _) & (_ & Hall)) Hin.
  rewrite Forall_forall in Hall. destruct (Hall vf Hin) as (H0 & Hb & Hp).
  assert (Hv : vf.1 ≤ version s) by (destruct (in_wait (ctl ss)); lia).
  repeat split; [exact H0 | exact Hv |].
  destruct (lookup_lt_is_Some_2 (published s) (vf.1 - 1)) as [buf Hbuf];
    [unfold version in Hv; lia|].
  exists buf. now rewrite Hp.
Qed.

(** A handler parked in [wait()] stays parked as long as the capture thread
    does not call [write]. *)
Lemma parked_until_write sched s s' i ss :
  capture s = Idle → sessions s !! i = Some ss → ctl ss = Waiting →
  Forall (λ a, ∀ buf, a ≠ Write buf) sched →
  run' sched s = Some s' → sessions s' !! i = Some ss.
Proof.
  intros Hcap Hi Hc Hsched. revert s Hcap Hi.
  induction Hsched as [|a sched Ha _ IH]; intros s Hcap Hi Hrun.
  - inversion Hrun. now subst.
  - rewrite run_cons in Hrun.
    destruct (exec' a s) as [s1|] eqn:E; [|discriminate Hrun].
    simpl in Hrun. apply (IH s1); [| |exact Hrun];
      destruct a as [r|j|j|buf|]; simpl in E.
    + inversion E; subst. exact Hcap.
    + destruct (sessions s !! j) as [x|]; [|discriminate]. simpl in E.
      destruct (handler_next s j x) as [[x' o]|]; [|discriminate].
      inversion E; subst. exact Hcap.
    + destruct (sessions s !! j) as [x|]; [|discriminate]. simpl in E.
      destruct (handler_break x) as [x'|]; [|discriminate].
      inversion E; subst. exact Hcap.
    + now contradiction (Ha buf).
    + unfold write_next in E. rewrite Hcap in E. discriminate.
    + inversion E; subst; simpl. now apply lookup_app_l_Some.
    + destruct (sessions s !! j) as [x|] eqn:Hj; [|discriminate]. simpl in E.
      destruct (handler_next s j x) as [[x' o]|] eqn:Hn; [|discriminate].
      inversion E; subst; simpl. destruct (decide (j = i)) as [->|Hne].
      * assert (x = ss) by congruence. subst x.
        unfold handler_next in Hn. rewrite Hc in Hn. discriminate.
      * now rewrite list_lookup_insert_ne.
    + destruct (sessions s !! j) as [x|] eqn:Hj; [|discriminate]. simpl in E.
      destruct (handler_break x) as [x'|] eqn:Hn; [|discriminate].
      inversion E; subst; simpl. destruct (decide (j = i)) as [->|Hne].
      * assert (x = ss) by congruence. subst x.
        unfold handler_break in Hn. rewrite Hc in Hn. discriminate.
      * now rewrite list_lookup_insert_ne.
    + now contradiction (Ha buf).
    + unfold write_next in E. rewrite Hcap in E. discriminate.
Qed.

(** C1, as amended. A handler parked in [wait()] cannot run, and stays
    parked along every run in which [write] is not called: it waits for a
    frame published after its call, whatever [output.frame] holds already;
    the next complete call of [write] notifies it. It leaves [wait()] only
    after such a frame was published, so that when
    [wait()] has returned the frame counter is above its value at the call and
    above the version of every frame the handler read before. The statement
    after [wait()] then reads the buffer that carries the current version.
    Hence the versions a handler reads strictly increase, and each frame read
    is the buffer published under that version. *)
Theorem wait_returns_newer_frame s i ss :
  reachable' s → sessions s !! i = Some ss →
  (ctl ss = Waiting →
     handler_next s i ss = None ∧ handler_break ss = None ∧
     cursor ss ≤ entered ss ∧
     (capture s = Idle →
      ∀ sched s', Forall (λ a, ∀ buf, a ≠ Write buf) sched →
                  run' sched s = Some s' → sessions s' !! i = Some ss) ∧
     (capture s = Idle → owner s = None →
      ∀ buf, ∃ s1, run' (publish buf) s = Some s1 ∧
                   sessions s1 !! i = Some (set_ctl Woken ss))) ∧
  (ctl ss = Woken ∨ ctl ss = Relocked →
     entered ss < version s ∧
     cursor ss ≤ entered ss ∧
     Forall (λ old, old.1 ≤ entered ss) (seen ss)) ∧
  (ctl ss = Relocked →
     ∃ buf ss',
       handler_next s i ss = Some (ss', owner s) ∧
       ctl ss' = Holding (Some buf) ∧
       seen ss' = (version s, Some buf) :: seen ss ∧
       published s !! (version s - 1) = Some buf ∧
       cursor ss < cursor ss' ∧
       Forall (λ old, old.1 < version s) (seen ss)) ∧
  newest_first (seen ss) ∧
  Forall (λ vf, 0 < vf.1 ∧ vf.1 ≤ version s ∧
                ∃ buf, vf.2 = Some buf ∧ published s !! (vf.1 - 1) = Some buf)
         (seen ss).
Proof.
  intros Hreach Hi.
  destruct (inv_reachable s Hreach) as [(Hf & _) Hall].
  assert (Hss : handler_inv s ss) by (eapply Forall_lookup_1; eauto).
  assert (Hss' := Hss). destruct Hss' as ((Hle & Hw) & (Hnf & Hseen)).
  assert (Hold : in_wait (ctl ss) = true →
            Forall (λ old, old.1 ≤ entered ss) (seen ss)).
  { intros Hc. eapply Forall_impl; [exact Hseen|]. simpl. intros vf (_ & Hb & _).
    now rewrite Hc in Hb. }
  assert (Hcur : in_wait (ctl ss) = true → cursor ss ≤ entered ss).
  { intros Hc. specialize (Hold Hc). unfold cursor.
    destruct (seen ss) as [|[v f] rest]; [lia|].
    now inversion Hold. }
  assert (Hnewer : ctl ss = Woken ∨ ctl ss = Relocked →
            entered ss < version s ∧ cursor ss ≤ entered ss ∧
            Forall (λ old, old.1 ≤ entered ss) (seen ss)).
  { intros Hc. split; [|split].
    - destruct Hc as [Hc|Hc]; now rewrite Hc in Hw.
    - apply Hcur. destruct Hc as [Hc|Hc]; now rewrite Hc.
    - apply Hold. destruct Hc as [Hc|Hc]; now rewrite Hc. }
  split; [|split; [exact Hnewer|split; [|split; [exact Hnf|]]]].
  - intros Hc. unfold handler_next, handler_break. rewrite Hc.
    split; [reflexivity|]. split; [reflexivity|].
    split; [apply Hcur; now rewrite Hc|]. split.
    + intros Hcap sched s' Hsched Hrun.
      eapply parked_until_write; eauto.
    + intros Hcap Ho buf. eexists. split; [now apply run_publish|].
      simpl. unfold notify_all. rewrite list_lookup_fmap, Hi. simpl.
      unfold wake. now rewrite Hc.
  - intros Hc. destruct (Hnewer (or_intror Hc)) as (Hlt & Hcu & Hold').
    destruct (lookup_lt_is_Some_2 (published s) (version s - 1)) as [buf Hbuf];
      [unfold version in *; lia|].
    assert (Hframe : frame s = Some buf).
    { rewrite Hf, last_lookup, <- Hbuf. unfold version. f_equal. lia. }
    exists buf. eexists. unfold handler_next. rewrite Hc, Hframe.
    split; [reflexivity|]. split; [reflexivity|]. split; [reflexivity|].
    split; [exact Hbuf|]. split; [unfold cursor at 2; simpl; lia|].
    eapply Forall_impl; [exact Hold'|]. simpl. intros. lia.
  - apply Forall_forall. intros vf Hin. eapply seen_published; eauto.
Qed.

(** *** Frames published while no handler runs *)

(** C3. When the capture thread completes any number of calls of [write]
    one after the other while no handler runs, a handler that was parked in
    [wait()] (or already notified) finds, once it holds the lock again, the
    buffer of the last call in [output.frame]: its next two statements succeed
    and leave it holding exactly that buffer, with the version of the last
    call. The buffers of the calls in between are never read. More generally,
    in every reachable state a notified handler that finds the lock free
    reads the buffer published last, however many were published since it
    called [wait()]. *)
Theorem wakes_to_last_frame s i ss :
  sessions s !! i = Some ss →
  (∀ bufs last_buf,
     capture s = Idle → owner s = None → ctl ss = Waiting ∨ ctl ss = Woken →
     ∃ s1 s2 ss2,
       run' (publish_all (bufs ++ [last_buf])) s = Some s1 ∧
       published s1 = published s ++ bufs ++ [last_buf] ∧
       version s1 = version s + length bufs + 1 ∧
       run' [Step i; Step i] s1 = Some s2 ∧
       sessions s2 !! i = Some ss2 ∧
       ctl ss2 = Holding (Some last_buf) ∧
       seen ss2 = (version s1, Some last_buf) :: seen ss) ∧
  (reachable' s → ctl ss = Woken → owner s = None →
     ∃ s2 ss2 buf,
       run' [Step i; Step i] s = Some s2 ∧
       sessions s2 !! i = Some ss2 ∧
       ctl ss2 = Holding (Some buf) ∧
       last (published s) = Some buf ∧
       entered ss < version s ∧
       seen ss2 = (version s, Some buf) :: seen ss).
Proof.
  intros Hi. split.
  - intros bufs last_buf Hc Ho Hctl.
    assert (Hw : ctl (wake ss) = Woken ∧ seen (wake ss) = seen ss).
    { unfold wake. destruct Hctl as [H|H]; rewrite H; auto. }
    destruct Hw as [Hw Hs].
    assert (Hi' : notify_all (sessions s) !! i = Some (wake ss)).
    { unfold notify_all. now rewrite list_lookup_fmap, Hi. }
    pose (s1 := {| frame := Some last_buf; owner := None; capture := Idle;
                   sessions := notify_all (sessions s);
                   published := published s ++ bufs ++ [last_buf] |}).
    destruct (woken_reads_frame s1 i (wake ss) Hi' Hw eq_refl)
      as (s2 & ss2 & Hrun & Hi2 & Hc2 & Hs2).
    exists s1, s2, ss2.
    split; [apply run_publish_all; assumption|].
    split; [reflexivity|].
    split; [unfold version; simpl; rewrite !length_app; simpl; lia|].
    split; [exact Hrun|]. split; [exact Hi2|]. split; [exact Hc2|].
    now rewrite Hs2, Hs.
  - intros Hreach Hc Ho.
    destruct (inv_reachable s Hreach) as [(Hf & _) Hall].
    assert (Hss : handler_inv s ss) by (eapply Forall_lookup_1; eauto).
    destruct Hss as ((_ & Hw) & _). rewrite Hc in Hw.
    destruct (lookup_lt_is_Some_2 (published s) (version s - 1)) as [buf Hbuf];
      [unfold version in *; lia|].
    assert (Hlast : last (published s) = Some buf).
    { rewrite last_lookup, <- Hbuf. unfold version. f_equal. lia. }
    destruct (woken_reads_frame s i ss Hi Hc Ho) as (s2 & ss2 & Hrun & Hi2 & Hc2 & Hs2).
    rewrite Hf, Hlast in Hc2, Hs2.
    exists s2, ss2, buf. auto 10.
Qed.

(** *** What [do_GET] decides *)

Lemma do_GET_unauthorized r :
  check_auth USERNAME PASSWORD b64decode decode_utf8 (Authorization r) = false →
  get r = (send_auth_request, false).
Proof. unfold do_GET. now intros ->. Qed.

Lemma do_GET_stream r script :
  get r = (script, true) →
  script = stream_head ∧
  check_auth USERNAME PASSWORD b64decode decode_utf8 (Authorization r) = true ∧
  path r = "/stream.mjpg".
Proof.
  unfold do_GET.
  destruct (check_auth _ _ _ _ _); simpl; [|discriminate].
  destruct (String.eqb (path r) "/" || String.eqb (path r) "/index.html");
    [discriminate|].
  destruct (String.eqb_spec (path r) "/stream.mjpg"); [|discriminate].
  intros [= <-]. auto.
Qed.

(** *** The calls sent and the frames read *)

Lemma sent_prefix script stream ss :
  sent_inv script stream ss →
  sent ss `prefix_of` script ++ parts (frames_of (seen ss)).
Proof.
  unfold sent_inv. intros H.
  destruct (ctl ss) as [todo st| | | | | |f|f todo|[]].
  - destruct H as (_ & <- & ->). exists todo. simpl. now rewrite app_nil_r.
  - destruct H as [_ ->]. reflexivity.
  - destruct H as [_ ->]. reflexivity.
  - destruct H as [_ ->]. reflexivity.
  - destruct H as [_ ->]. reflexivity.
  - destruct H as [_ ->]. reflexivity.
  - destruct H as (_ & v & rest & -> & ->). exists (part f).
    now rewrite frames_of_cons, parts_snoc, app_assoc.
  - destruct H as (_ & v & rest & -> & H). exists todo.
    now rewrite frames_of_cons, parts_snoc, H.
  - destruct H as (_ & -> & ->). simpl. now rewrite app_nil_r.
  - destruct H as (_ & v & f & rest & op & todo & -> & H). exists (op :: todo).
    now rewrite frames_of_cons, parts_snoc, H.
  - destruct H as (-> & op & todo & <-). exists (op :: todo).
    simpl. now rewrite app_nil_r.
Qed.

Lemma frames_published s ss :
  handler_inv s ss →
  ∃ bufs, frames_of (seen ss) = map Some bufs ∧
          Forall (λ buf, buf ∈ published s) bufs.
Proof.
  intros Hinv. unfold frames_of.
  assert (H : ∀ vf, vf ∈ seen ss → ∃ buf, vf.2 = Some buf ∧ buf ∈ published s).
  { intros vf Hin. destruct (seen_published s ss vf Hinv Hin) as (_ & _ & buf & E & Hp).
    exists buf. split; [exact E|]. eapply list_elem_of_lookup_2; eauto. }
  induction (seen ss) as [|vf l IH].
  - exists []. split; [reflexivity | constructor].
  - destruct IH as (bufs & E & Hall).
    { intros x Hx. apply H. now constructor. }
    destruct (H vf) as (buf & Ebuf & Hbuf); [constructor|].
    exists (bufs ++ [buf]). split.
    + simpl. rewrite E, Ebuf, map_app. reflexivity.
    + apply Forall_app. split; [exact Hall|]. constructor; [exact Hbuf|constructor].
Qed.

Lemma parts_Some bufs : parts (map Some bufs) = concat (map (λ buf, part (Some buf)) bufs).
Proof. unfold parts. now rewrite map_map. Qed.

(** The only [wfile.write] calls in the parts are the boundary, the frame and
    the line terminator. *)
Lemma write_in_parts data bufs :
  wfile_write data ∈ concat (map (λ buf, part (Some buf)) bufs) →
  data = boundary ∨ data = terminator ∨ data ∈ bufs.
Proof.
  induction bufs as [|buf bufs IH]; simpl; intros H.
  - now apply elem_of_nil in H.
  - apply elem_of_cons in H as [H|H]; [inversion H; now left|].
    apply elem_of_cons in H as [H|H]; [discriminate H|].
    apply elem_of_cons in H as [H|H]; [discriminate H|].
    apply elem_of_cons in H as [H|H]; [discriminate H|].
    apply elem_of_cons in H as [H|H];
      [inversion H; right; right; now constructor|].
    apply elem_of_cons in H as [H|H]; [inversion H; right; now left|].
    destruct (IH H) as [?|[?|?]]; auto. right. right. now constructor.
Qed.

(** C7. The frames a handler has taken out of [output.frame] are buffers
    that were passed to [write], whole. The calls it has made on its
    connection are an initial segment of the response head followed by one
    part per such buffer, so every [wfile.write] it has made beyond the head
    wrote the boundary, the line terminator or one of these buffers in full.
    The frame a handler holds between reading it and sending it is a
    published buffer as well, never [None]. The handler reads [output.frame]
    while it holds the lock and the capture thread is outside [write], when
    [output.frame] is the buffer published last. *)
Theorem frames_sent_are_published s i ss :
  reachable' s → sessions s !! i = Some ss →
  ∃ bufs,
    Forall (λ buf, buf ∈ published s) bufs ∧
    frames_of (seen ss) = map Some bufs ∧
    sent ss `prefix_of` (get (req ss)).1 ++ concat (map (λ buf, part (Some buf)) bufs) ∧
    (∀ data, wfile_write data ∈ sent ss →
       wfile_write data ∈ (get (req ss)).1 ∨
       data = boundary ∨ data = terminator ∨ data ∈ published s) ∧
    (∀ f, ctl ss = Holding f ∨ (∃ todo, ctl ss = Part f todo) →
       ∃ buf, f = Some buf ∧ buf ∈ published s) ∧
    (ctl ss = Relocked →
       owner s = Some (Handler i) ∧ capture s = Idle ∧
       frame s = last (published s)).
Proof.
  intros Hreach Hi.
  destruct (inv_reachable s Hreach) as [(Hfr & Hcap & Hlock) Hall].
  assert (Hss : handler_inv s ss) by (eapply Forall_lookup_1; eauto).
  assert (Hlog : log_inv' ss).
  { eapply Forall_lookup_1; [apply log_inv_reachable|]; eauto. }
  unfold log_inv in Hlog. destruct (get (req ss)) as [script stream]. simpl.
  destruct (frames_published s ss Hss) as (bufs & E & Hpub).
  pose proof (sent_prefix _ _ _ Hlog) as Hpre. rewrite E, parts_Some in Hpre.
  exists bufs. split; [exact Hpub|]. split; [exact E|]. split; [exact Hpre|].
  split; [|split].
  - intros data Hin. destruct Hpre as [k Hk].
    assert (Hin' : wfile_write data ∈ sent ss ++ k).
    { apply elem_of_app. now left. }
    rewrite <- Hk in Hin'. apply elem_of_app in Hin' as [H|H]; [now left|].
    right. destruct (write_in_parts _ _ H) as [?|[?|Hb]]; auto.
    right. right. rewrite Forall_forall in Hpub. auto.
  - intros f Hf.
    assert (Hseen : ∃ v rest, seen ss = (v, f) :: rest).
    { unfold sent_inv in Hlog.
      destruct Hf as [Hf|[todo Hf]]; rewrite Hf in Hlog;
        destruct Hlog as (_ & v & rest & Hs & _); eauto. }
    destruct Hseen as (v & rest & Hs).
    destruct (seen_published s ss (v, f) Hss) as (_ & _ & buf & Ef & Hp).
    { rewrite Hs. constructor. }
    exists buf. split; [exact Ef|]. eapply list_elem_of_lookup_2; eauto.
  - intros Hc.
    assert (Ho : owner s = Some (Handler i)).
    { apply Hlock. exists ss. rewrite Hc. auto. }
    split; [exact Ho|]. split; [|exact Hfr].
    destruct (capture s) eqn:C; [reflexivity|..];
      assert (owner s = Some Capture) by (apply Hcap; discriminate); congruence.
Qed.

(** *** The octets of the parts *)

Section WireProperties.

Variable response_head : nat → list bytes.
Variable error_response : nat → list bytes * bytes.

Local Abbreviation transmit' := (transmit response_head error_response).












End WireProperties.



(** *** Requests that fail validation *)

Lemma unauthorized_handler r s i ss :
  check_auth USERNAME PASSWORD b64decode decode_utf8 (Authorization r) = false →
  reachable' s → sessions s !! i = Some ss → req ss = r →
  answering (ctl ss) = true ∧ seen ss = [] ∧
  sent ss `prefix_of` send_auth_request ∧
  (ctl ss = Closed Returned → sent ss = send_auth_request).
Proof.
  intros Hcheck Hreach Hi Hr.
  assert (Hlog : log_inv' ss).
  { eapply Forall_lookup_1; [apply log_inv_reachable|]; eauto. }
  unfold log_inv in Hlog. rewrite Hr, (do_GET_unauthorized r Hcheck) in Hlog.
  pose proof (sent_prefix _ _ _ Hlog) as Hpre.
  unfold sent_inv in Hlog.
  destruct (ctl ss) as [todo st| | | | | |f|f todo|[]];
    try (destruct Hlog as [Hlog _]; discriminate Hlog).
  - destruct Hlog as (_ & _ & Hs). rewrite Hs in Hpre.
    change (parts (frames_of [])) with (@nil instr) in Hpre.
    rewrite app_nil_r in Hpre. repeat split; auto. discriminate.
  - destruct Hlog as (_ & Hsent & Hs). rewrite Hs in Hpre.
    change (parts (frames_of [])) with (@nil instr) in Hpre.
    rewrite app_nil_r in Hpre. repeat split; auto.
  - destruct Hlog as (Hs & _). rewrite Hs in Hpre.
    change (parts (frames_of [])) with (@nil instr) in Hpre.
    rewrite app_nil_r in Hpre. repeat split; auto. discriminate.
Qed.


(** C8. Two requests that both fail validation, for whatever reason and on
    whatever paths, are answered by the same calls: the same status, the same
    two headers and the same body, hence the same octets on connections in the
    same state. Two handlers that have returned from such requests have sent
    the same thing. *)
Theorem unauthorized_responses_identical r1 r2 :
  check_auth USERNAME PASSWORD b64decode decode_utf8 (Authorization r1) = false →
  check_auth USERNAME PASSWORD b64decode decode_utf8 (Authorization r2) = false →
  get r1 = get r2 ∧
  (get r1).1 =
    [ send_response 401;
      send_header "WWW-Authenticate" ("Basic realm=" +:+ DQUOTE +:+ "Pi Camera" +:+ DQUOTE);
      send_header "Content-Type" "text/html";
      end_headers;
      wfile_write (b "<h1>401 - Authentication Required</h1>") ] ∧
  (∀ response_head error_response c,
     transmit response_head error_response (get r1).1 c =
     transmit response_head error_response (get r2).1 c) ∧
  (∀ s1 s2 i1 i2 ss1 ss2,
     reachable' s1 → reachable' s2 →
     sessions s1 !! i1 = Some ss1 → sessions s2 !! i2 = Some ss2 →
     req ss1 = r1 → req ss2 = r2 →
     ctl ss1 = Closed Returned → ctl ss2 = Closed Returned →
     sent ss1 = sent ss2).
Proof.
  intros H1 H2.
  rewrite (do_GET_unauthorized r1 H1), (do_GET_unauthorized r2 H2).
  split; [reflexivity|]. split; [reflexivity|]. split; [reflexivity|].
  intros s1 s2 i1 i2 ss1 ss2 Hs1 Hs2 Hi1 Hi2 Hr1 Hr2 Hc1 Hc2.
  destruct (unauthorized_handler r1 s1 i1 ss1 H1 Hs1 Hi1 Hr1) as (_ & _ & _ & E1).
  destruct (unauthorized_handler r2 s2 i2 ss2 H2 Hs2 Hi2 Hr2) as (_ & _ & _ & E2).
  now rewrite (E1 Hc1), (E2 Hc2).
Qed.

(** *** Handlers that have left [do_GET] *)

Lemma closed_stable a s s' i ss how :
  sessions s !! i = Some ss → ctl ss = Closed how →
  exec' a s = Some s' → sessions s' !! i = Some ss.
Proof.
  intros Hi Hc E. destruct a as [r|j|j|buf|]; simpl in E.
  - inversion E; subst; simpl. now apply lookup_app_l_Some.
  - destruct (sessions s !! j) as [x|] eqn:Hj; [|discriminate]. simpl in E.
    destruct (handler_next s j x) as [[x' o]|] eqn:Hn; [|discriminate].
    inversion E; subst; simpl. destruct (decide (j = i)) as [->|Hne].
    + assert (x = ss) by congruence. subst x.
      unfold handler_next in Hn. rewrite Hc in Hn. discriminate.
    + now rewrite list_lookup_insert_ne.
  - destruct (sessions s !! j) as [x|] eqn:Hj; [|discriminate]. simpl in E.
    destruct (handler_break x) as [x'|] eqn:Hn; [|discriminate].
    inversion E; subst; simpl. destruct (decide (j = i)) as [->|Hne].
    + assert (x = ss) by congruence. subst x.
      unfold handler_break in Hn. rewrite Hc in Hn. discriminate.
    + now rewrite list_lookup_insert_ne.
  - unfold write in E. destruct (capture s), (owner s); inversion E; subst; exact Hi.
  - unfold write_next in E. destruct (capture s); inversion E; subst; simpl;
      try exact Hi.
    unfold notify_all. rewrite list_lookup_fmap, Hi. simpl.
    unfold wake. now rewrite Hc.
Qed.

Lemma closed_forever sched s s' i ss how :
  sessions s !! i = Some ss → ctl ss = Closed how →
  run' sched s = Some s' → sessions s' !! i = Some ss.
Proof.
  intros Hi Hc.
  apply (run_invariant (λ x, sessions x !! i = Some ss)); [|exact Hi].
  intros a x x' Hx E. eapply closed_stable; eauto.
Qed.

Lemma closed_disabled s i ss how :
  sessions s !! i = Some ss → ctl ss = Closed how →
  exec' (Step i) s = None ∧ exec' (Break i) s = None.
Proof.
  intros Hi Hc. simpl. rewrite Hi. simpl.
  unfold handler_next, handler_break. now rewrite Hc.
Qed.

(** C6. When a write of handler [i] to its connection raises, the handler
    is closed at once: through the [except] clause when it was inside the
    loop. The failed call is not recorded as sent. Nothing else changes: the
    frame, the lock, the capture thread, the published frames and every other
    handler are as before, and the lock is not held by the handler. From then
    on, along every run, the handler stays as it is, and neither a further
    statement nor a further failure of it is possible: it writes nothing more
    and never waits on [output.condition] again. *)
Theorem broken_connection_closes s i s' :
  reachable' s → exec' (Break i) s = Some s' →
  ∃ ss ss' how,
    sessions s !! i = Some ss ∧
    handler_break ss = Some ss' ∧
    sessions s' !! i = Some ss' ∧
    ctl ss' = Closed how ∧
    ((∃ f todo, ctl ss = Part f todo) → how = Disconnected) ∧
    sent ss' = sent ss ∧
    frame s' = frame s ∧ owner s' = owner s ∧ capture s' = capture s ∧
    published s' = published s ∧
    owner s' ≠ Some (Handler i) ∧
    length (sessions s') = length (sessions s) ∧
    (∀ j, j ≠ i → sessions s' !! j = sessions s !! j) ∧
    (∀ sched s'',
       run' sched s' = Some s'' →
       sessions s'' !! i = Some ss' ∧
       exec' (Step i) s'' = None ∧ exec' (Break i) s'' = None).
Proof.
  intros Hreach E. simpl in E.
  destruct (sessions s !! i) as [ss|] eqn:Hi; [|discriminate]. simpl in E.
  destruct (handler_break ss) as [ss'|] eqn:Hb; [|discriminate].
  inversion E; subst; simpl. clear E.
  assert (Hlen : i < length (sessions s)) by (eapply lookup_lt_Some; eauto).
  assert (Hi' : <[i := ss']> (sessions s) !! i = Some ss')
    by now apply list_lookup_insert_eq.
  assert (Hclosed : ∃ how, ctl ss' = Closed how ∧
            ((∃ f todo, ctl ss = Part f todo) → how = Disconnected) ∧
            sent ss' = sent ss ∧ holds_lock (ctl ss) = false).
  { unfold handler_break in Hb.
    destruct (ctl ss) as [[|op ?] ?| | | | | | |? [|op ?]|] eqn:C; try discriminate;
      destruct (writes op); inversion Hb; subst; simpl.
    - exists Propagated. repeat split; auto. intros (f & todo & [=]).
    - exists Disconnected. repeat split; auto. }
  destruct Hclosed as (how & Hc & Hhow & Hsent & Hh).
  exists ss, ss', how.
  split; [first [reflexivity | exact Hi]|]. split; [exact Hb|]. split; [exact Hi'|].
  split; [exact Hc|]. split; [exact Hhow|]. split; [exact Hsent|].
  do 4 (split; [reflexivity|]).
  split.
  { destruct (inv_reachable s Hreach) as [(_ & _ & Hl) _].
    intros Ho. apply Hl in Ho as (ss0 & Hi0 & Hh0). congruence. }
  split; [apply length_insert|].
  split.
  { intros j Hne. now apply list_lookup_insert_ne. }
  intros sched s'' Hrun.
  assert (Hi'' : sessions s'' !! i = Some ss').
  { eapply closed_forever; [| |exact Hrun]; eauto. }
  split; [exact Hi''|]. eapply closed_disabled; eauto.
Qed.

End MachineProperties.

(** ** Start-up *)

(** C9. When a call that brings up the capture pipeline raises (opening the
    camera, building or applying the configuration, creating the encoder or
    the file output, starting the recording), the script ends with that
    exception before [StreamingServer] is ever constructed, so no listening
    socket was bound, and the interpreter exits with a non-zero status. *)
Theorem capture_failure_prevents_listener (w : world) c e :
  c ∈ capture_setup → w c = Some e →
  (StreamingServer ∉ (main w []).1) ∧
  (serve_forever ∉ (main w []).1) ∧
  (∃ e', (main w []).2 = Raise e') ∧
  exit_status (main w []).2 ≠ 0.
Proof.
  intros Hc Hw.
  assert (Hex : ∀ x : exn, exit_status (Raise x) ≠ 0) by (intros []; discriminate).
  unfold main, seq, call.
  destruct (w Picamera2) eqn:E1; simpl.
  { repeat split; eauto; absent. }
  destruct (w create_video_configuration) eqn:E2; simpl.
  { repeat split; eauto; absent. }
  destruct (w configure) eqn:E3; simpl.
  { repeat split; eauto; absent. }
  destruct (w StreamingOutput) eqn:E4; simpl.
  { repeat split; eauto; absent. }
  destruct (w JpegEncoder) eqn:E5; simpl.
  { repeat split; eauto; absent. }
  destruct (w FileOutput) eqn:E6; simpl.
  { repeat split; eauto; absent. }
  destruct (w start_recording) eqn:E7; simpl.
  { repeat split; eauto; absent. }
  exfalso. unfold capture_setup in Hc.
  repeat (apply elem_of_cons in Hc as [->|Hc]; [congruence|]).
  now apply elem_of_nil in Hc.
Qed.

(** ** The properties on the concrete configuration *)

Lemma reach_run sched s :
  Demo.go sched init = Some s → Demo.reach s.
Proof. intros H. exists sched. exact H. Qed.

Lemma wait_returns_newer_frame_witness :
  Demo.reach Demo.relocked_state ∧
  sessions Demo.relocked_state !! 0 = Some Demo.relocked_handler ∧
  ∃ ss',
    handler_next Demo.relocked_state 0 Demo.relocked_handler =
      Some (ss', Some (Handler 0)) ∧
    ctl ss' = Holding (Some Demo.frameA) ∧
    seen ss' = [(1, Some Demo.frameA)].
Proof.
  assert (Hreach : Demo.reach Demo.relocked_state).
  { apply (reach_run Demo.to_relocked). vm_compute. reflexivity. }
  assert (Hi : sessions Demo.relocked_state !! 0 = Some Demo.relocked_handler)
    by reflexivity.
  split; [exact Hreach|]. split; [exact Hi|].
  destruct (wait_returns_newer_frame _ _ _ _ _ _ _ _ Hreach Hi) as (_ & _ & H & _).
  destruct (H eq_refl) as (buf & ss' & Hn & Hc & Hs & Hp & _).
  vm_compute in Hp. inversion Hp; subst buf.
  exists ss'. split; [exact Hn|]. split; [exact Hc|exact Hs].
Defined.

Lemma wakes_to_last_frame_witness :
  capture Demo.waiting_state = Idle ∧ owner Demo.waiting_state = None ∧
  sessions Demo.waiting_state !! 0 = Some Demo.waiting_handler ∧
  ∃ s1 s2 ss2,
    Demo.go (publish_all [Demo.frameA; Demo.frameB; Demo.frameC]) Demo.waiting_state
      = Some s1 ∧
    Demo.go [Step 0; Step 0] s1 = Some s2 ∧
    sessions s2 !! 0 = Some ss2 ∧
    ctl ss2 = Holding (Some Demo.frameC) ∧
    seen ss2 = [(3, Some Demo.frameC)].
Proof.
  split; [reflexivity|]. split; [reflexivity|]. split; [reflexivity|].
  destruct (proj1 (wakes_to_last_frame (u "admin") (u "secret") PyLib.b64decode
              PyLib.decode_utf8 Demo.page Demo.waiting_state
              0 Demo.waiting_handler eq_refl)
              [Demo.frameA; Demo.frameB] Demo.frameC
              eq_refl eq_refl (or_introl eq_refl))
    as (s1 & s2 & ss2 & H1 & Hp & Hv & H2 & Hi & Hc & Hs).
  exists s1, s2, ss2. split; [exact H1|]. split; [exact H2|].
  split; [exact Hi|]. split; [exact Hc|].
  rewrite Hs, Hv. reflexivity.
Defined.



Lemma broken_connection_closes_witness :
  Demo.reach Demo.body_state ∧
  Demo.go [Break 0] Demo.body_state = Some Demo.broken_state ∧
  ∃ ss',
    sessions Demo.broken_state !! 0 = Some ss' ∧
    ctl ss' = Closed Disconnected ∧
    sent ss' = sent Demo.body_handler ∧
    frame Demo.broken_state = Some Demo.frameA ∧
    owner Demo.broken_state = None ∧
    ∀ sched s'',
      Demo.go sched Demo.broken_state = Some s'' →
      sessions s'' !! 0 = Some ss' ∧ Demo.go [Step 0] s'' = None.
Proof.
  assert (Hreach : Demo.reach Demo.body_state).
  { apply (reach_run Demo.to_body). vm_compute. reflexivity. }
  split; [exact Hreach|]. split; [reflexivity|].
  destruct (broken_connection_closes (u "admin") (u "secret") PyLib.b64decode
              PyLib.decode_utf8 Demo.page Demo.body_state 0 Demo.broken_state
              Hreach eq_refl)
    as (ss & ss' & how & Hi & _ & Hi' & Hc & Hhow & Hsent & Hf & Ho & _ & _ & _ & _ & _ & Hrun).
  assert (Hbody : sessions Demo.body_state !! 0 = Some Demo.body_handler)
    by reflexivity.
  rewrite Hbody in Hi. inversion Hi; subst ss.
  exists ss'. split; [exact Hi'|].
  split. { rewrite Hc. f_equal. apply Hhow. eexists _, _. reflexivity. }
  split; [exact Hsent|]. split; [rewrite Hf; reflexivity|].
  split; [rewrite Ho; reflexivity|].
  intros sched s'' Hs''. destruct (Hrun sched s'' Hs'') as (H1 & H2 & _).
  split; [exact H1|]. unfold Demo.go. simpl run.
  unfold Demo.go in Hs''. simpl in H2. now rewrite H2.
Defined.

Lemma frames_sent_are_published_witness :
  Demo.reach Demo.body_state ∧
  sessions Demo.body_state !! 0 = Some Demo.body_handler ∧
  published Demo.body_state = [Demo.frameA] ∧
  ∃ buf, ctl Demo.body_handler =
           Part (Some buf) [wfile_write buf; wfile_write terminator] ∧
         buf ∈ published Demo.body_state.
Proof.
  assert (Hreach : Demo.reach Demo.body_state).
  { apply (reach_run Demo.to_body). vm_compute. reflexivity. }
  split; [exact Hreach|]. split; [reflexivity|]. split; [reflexivity|].
  destruct (frames_sent_are_published (u "admin") (u "secret") PyLib.b64decode
              PyLib.decode_utf8 Demo.page Demo.body_state 0 Demo.body_handler
              Hreach eq_refl)
    as (bufs & _ & _ & _ & _ & H & _).
  destruct (H (Some Demo.frameA)) as (buf & E & Hin).
  { right. eexists. reflexivity. }
  exists buf. split; [|exact Hin]. inversion E. reflexivity.
Defined.

Lemma unauthorized_responses_identical_witness :
  Demo.check (Authorization Demo.anonymous_request) = false ∧
  Demo.check (Authorization Demo.wrong_password_request) = false ∧
  Demo.get Demo.anonymous_request = Demo.get Demo.wrong_password_request.
Proof.
  split; [reflexivity|]. split; [reflexivity|].
  exact (proj1 (unauthorized_responses_identical (u "admin") (u "secret")
                  PyLib.b64decode PyLib.decode_utf8 Demo.page
                  Demo.anonymous_request Demo.wrong_password_request
                  eq_refl eq_refl)).
Defined.

Lemma capture_failure_prevents_listener_witness :
  Demo.camera_busy start_recording = Some RuntimeError ∧
  (main Demo.camera_busy []).1 =
    [Picamera2; create_video_configuration; configure; StreamingOutput;
     JpegEncoder; FileOutput; start_recording] ∧
  (StreamingServer ∉ (main Demo.camera_busy []).1) ∧
  exit_status (main Demo.camera_busy []).2 ≠ 0.
Proof.
  split; [reflexivity|]. split; [reflexivity|].
  assert (Hin : start_recording ∈ capture_setup).
  { unfold capture_setup. do 5 (apply elem_of_cons; right). now constructor. }
  destruct (capture_failure_prevents_listener Demo.camera_busy start_recording
              RuntimeError Hin eq_refl) as (H1 & _ & _ & H2).
  split; [exact H1 | exact H2].
Defined.

(** ** Where the code departs from the specification's words *)

(** C1, as stated: [WaitForNext(v)] blocks until the held version exceeds
    [v]. After the run [Demo.to_missed] the handler has read version 1 only,
    three frames have been published, and the handler is parked in [wait()]:
    the two frames published while it was sending are not noticed, and it
    stays parked until [write] is called again. *)
Lemma wait_blocks_past_newer_frame :
  Demo.reach Demo.missed_state ∧
  sessions Demo.missed_state !! 0 = Some Demo.missed_handler ∧
  ctl Demo.missed_handler = Waiting ∧
  handler_next Demo.missed_state 0 Demo.missed_handler = None ∧
  cursor Demo.missed_handler = 1 ∧
  version Demo.missed_state = 3 ∧
  frame Demo.missed_state = Some Demo.frameC ∧
  ¬ (∀ s i ss,
       Demo.reach s → sessions s !! i = Some ss → ctl ss = Waiting →
       version s ≤ cursor ss).
Proof.
  assert (Hreach : Demo.reach Demo.missed_state).
  { apply (reach_run Demo.to_missed). vm_compute. reflexivity. }
  split; [exact Hreach|]. do 6 (split; [reflexivity|]).
  intros H.
  specialize (H Demo.missed_state 0 Demo.missed_handler Hreach eq_refl eq_refl).
  vm_compute in H. lia.
Qed.



(** * Further properties of the handler threads *)

Section MoreMachineProperties.

Variable USERNAME PASSWORD : pystr.
Variable b64decode : string → result bytes.
Variable decode_utf8 : bytes → result pystr.
Variable html : bytes.

Local Abbreviation get := (do_GET USERNAME PASSWORD b64decode decode_utf8 html).
Local Abbreviation new := (accept USERNAME PASSWORD b64decode decode_utf8 html).
Local Abbreviation exec' := (exec USERNAME PASSWORD b64decode decode_utf8 html).
Local Abbreviation run' := (run USERNAME PASSWORD b64decode decode_utf8 html).
Local Abbreviation reachable' := (reachable USERNAME PASSWORD b64decode decode_utf8 html).
Local Abbreviation log_inv' := (log_inv USERNAME PASSWORD b64decode decode_utf8 html).

(** ** The lock of [output.condition] *)

(** X1. Mutual exclusion. In every reachable state at most one thread owns
    the lock of [output.condition]. A handler owns it from entering the
    [with] block of line 238 until its [wait()] releases it, and from the
    moment [wait()] has taken it again until the block is left after line
    240. Two handlers are never both at such a point; a handler that is there
    is the recorded owner, and the capture thread is then outside [write];
    while the capture thread is inside [write] it is the owner and no handler
    is at such a point; when the lock is free, no thread is. Handlers parked
    in [wait()], or notified and waiting for the lock, own nothing and may be
    present in each of these cases. *)
Theorem lock_is_exclusive s :
  reachable' s →
  (∀ i j si sj,
     sessions s !! i = Some si → sessions s !! j = Some sj →
     holds_lock (ctl si) = true → holds_lock (ctl sj) = true → i = j) ∧
  (∀ i si,
     sessions s !! i = Some si → holds_lock (ctl si) = true →
     owner s = Some (Handler i) ∧ capture s = Idle) ∧
  (capture s ≠ Idle →
     owner s = Some Capture ∧
     ∀ i si, sessions s !! i = Some si → holds_lock (ctl si) = false) ∧
  (owner s = None →
     capture s = Idle ∧
     ∀ i si, sessions s !! i = Some si → holds_lock (ctl si) = false).
Proof.
  intros Hreach.
  destruct (inv_reachable _ _ _ _ _ s Hreach) as [(_ & Hc & Hl) _].
  assert (Hown : ∀ i si, sessions s !! i = Some si → holds_lock (ctl si) = true →
                 owner s = Some (Handler i)).
  { intros i si Hi Hh. apply Hl. eauto. }
  assert (Hidle : owner s ≠ Some Capture → capture s = Idle).
  { intros H. destruct (capture s) eqn:C; [reflexivity|..];
      exfalso; apply H, Hc; discriminate. }
  split; [|split; [|split]].
  - intros i j si sj Hi Hj Hhi Hhj.
    pose proof (Hown i si Hi Hhi). pose proof (Hown j sj Hj Hhj). congruence.
  - intros i si Hi Hh. pose proof (Hown i si Hi Hh) as Ho.
    split; [exact Ho|]. apply Hidle. congruence.
  - intros Hcap. assert (Ho : owner s = Some Capture) by now apply Hc.
    split; [exact Ho|]. intros i si Hi.
    destruct (holds_lock (ctl si)) eqn:Hh; [|reflexivity].
    pose proof (Hown i si Hi Hh). congruence.
  - intros Ho. split; [apply Hidle; congruence|]. intros i si Hi.
    destruct (holds_lock (ctl si)) eqn:Hh; [|reflexivity].
    pose proof (Hown i si Hi Hh). congruence.
Qed.

Lemma run_one a s s1 : exec' a s = Some s1 → run' [a] s = Some s1.
Proof. intros E. simpl. now rewrite E. Qed.

Lemma run_two a1 a2 s s1 s2 :
  exec' a1 s = Some s1 → exec' a2 s1 = Some s2 → run' [a1; a2] s = Some s2.
Proof. intros E1 E2. simpl. rewrite E1. simpl. now rewrite E2. Qed.

Lemma run_three a1 a2 a3 s s1 s2 s3 :
  exec' a1 s = Some s1 → exec' a2 s1 = Some s2 → exec' a3 s2 = Some s3 →
  run' [a1; a2; a3] s = Some s3.
Proof. intros E1 E2 E3. simpl. rewrite E1. simpl. rewrite E2. simpl. now rewrite E3. Qed.

Lemma step_exec s i ss ss' o :
  sessions s !! i = Some ss → handler_next s i ss = Some (ss', o) →
  exec' (Step i) s =
  Some {| frame := frame s; owner := o; capture := capture s;
          sessions := <[i := ss']> (sessions s); published := published s |}.
Proof. intros Hi Hn. simpl. rewrite Hi. simpl. now rewrite Hn. Qed.

(** X2. Nobody keeps the lock. A handler that owns the lock gives it up
    after at most two statements of its own, which are always enabled and
    make no call on its connection; the capture thread gives it up after at
    most three. So a client that is slow to accept its octets never keeps
    [write] waiting, and a slow [write] is the only thing that keeps the
    handlers out. *)
Theorem lock_held_briefly s :
  reachable' s →
  (∀ i, owner s = Some (Handler i) →
     ∃ n s' ss ss',
       0 < n ∧ n ≤ 2 ∧
       sessions s !! i = Some ss ∧ holds_lock (ctl ss) = true ∧
       run' (repeat (Step i) n) s = Some s' ∧
       owner s' = None ∧
       sessions s' !! i = Some ss' ∧ sent ss' = sent ss ∧
       frame s' = frame s) ∧
  (owner s = Some Capture →
     ∃ n s',
       0 < n ∧ n ≤ 3 ∧
       run' (repeat WriteNext n) s = Some s' ∧
       owner s' = None ∧ capture s' = Idle).
Proof.
  intros Hreach.
  destruct (inv_reachable _ _ _ _ _ s Hreach) as [(_ & Hc & Hl) _].
  split.
  - intros i Ho. apply Hl in Ho as (ss & Hi & Hh).
    assert (Hlen : i < length (sessions s)) by (eapply lookup_lt_Some; eauto).
    assert (Hh' : holds_lock (ctl ss) = true) by exact Hh.
    destruct (ctl ss) as [| | | | | |f|f todo|] eqn:C; try discriminate Hh.
    + (* Locked: wait() releases *)
      exists 1. eexists. exists ss. eexists.
      split; [lia|]. split; [lia|]. split; [exact Hi|]. split; [now rewrite C|].
      split. { apply run_one, (step_exec s i ss); [exact Hi|].
               unfold handler_next. rewrite C. reflexivity. }
      simpl. split; [reflexivity|].
      split; [now apply list_lookup_insert_eq|]. split; reflexivity.
    + (* Relocked: read the frame, leave the block *)
      exists 2. eexists. exists ss. eexists.
      split; [lia|]. split; [lia|]. split; [exact Hi|]. split; [now rewrite C|].
      split.
      { eapply run_two.
        - apply (step_exec s i ss); [exact Hi|].
          unfold handler_next. rewrite C. reflexivity.
        - eapply step_exec; [simpl; now apply list_lookup_insert_eq|].
          reflexivity. }
      simpl. split; [reflexivity|].
      split; [apply list_lookup_insert_eq; now rewrite length_insert|].
      split; reflexivity.
    + (* Holding: leave the block *)
      exists 1. eexists. exists ss. eexists.
      split; [lia|]. split; [lia|]. split; [exact Hi|]. split; [now rewrite C|].
      split. { apply run_one, (step_exec s i ss); [exact Hi|].
               unfold handler_next. rewrite C. reflexivity. }
      simpl. split; [reflexivity|].
      split; [now apply list_lookup_insert_eq|]. split; reflexivity.
  - intros Ho. apply Hc in Ho. clear Hreach Hc Hl.
    destruct s as [f o [|buf| |] l p]; simpl in *; [now contradiction Ho|..].
    + exists 3. eexists. split; [lia|]. split; [lia|]. repeat split.
    + exists 2. eexists. split; [lia|]. split; [lia|]. repeat split.
    + exists 1. eexists. split; [lia|]. split; [lia|]. repeat split.
Qed.

(** ** Before the first frame, and the frames read afterwards *)

Lemma newest_first_bound l n :
  newest_first l → Forall (λ vf, 0 < vf.1 ∧ vf.1 ≤ n) l →
  length l ≤ n ∧ NoDup (map fst l).
Proof.
  revert n. induction l as [|[v f] l IH]; intros n Hnf Hall.
  - split; [simpl; lia | constructor].
  - destruct Hnf as [Hlt Hnf]. inversion Hall as [|? ? [H0 Hv] Hrest]; subst.
    simpl in *.
    assert (Hall' : Forall (λ vf, 0 < vf.1 ∧ vf.1 ≤ v - 1) l).
    { rewrite Forall_forall in *. intros x Hx.
      specialize (Hlt x Hx). specialize (Hrest x Hx). simpl in *. lia. }
    destruct (IH (v - 1) Hnf Hall') as [Hlen Hnd].
    split; [lia|]. constructor; [|exact Hnd].
    intros Hin. apply list_elem_of_fmap in Hin as (x & E & Hx).
    rewrite Forall_forall in Hlt. specialize (Hlt x Hx). simpl in *. lia.
Qed.

(** X3. No frame is delivered twice, and none that was not published. The
    frames a handler has read carry pairwise different versions, there are
    never more of them than frames published, and each version is one that
    [write] has produced. *)
Theorem frames_read_are_distinct s i ss :
  reachable' s → sessions s !! i = Some ss →
  NoDup (map fst (seen ss)) ∧
  length (seen ss) ≤ version s ∧
  cursor ss ≤ version s ∧
  Forall (λ vf, 0 < vf.1 ∧ vf.1 ≤ version s) (seen ss).
Proof.
  intros Hreach Hi.
  destruct (inv_reachable _ _ _ _ _ s Hreach) as [_ Hall].
  assert (Hss : handler_inv s ss) by (eapply Forall_lookup_1; eauto).
  assert (Hb : Forall (λ vf, 0 < vf.1 ∧ vf.1 ≤ version s) (seen ss)).
  { apply Forall_forall. intros vf Hin.
    destruct (seen_published s ss vf Hss Hin) as (H0 & Hv & _). auto. }
  destruct Hss as (_ & Hnf & _).
  destruct (newest_first_bound _ _ Hnf Hb) as [Hlen Hnd].
  split; [exact Hnd|]. split; [exact Hlen|]. split; [|exact Hb].
  unfold cursor. destruct (seen ss) as [|[v f] rest]; [lia|].
  inversion Hb as [|? ? [_ Hv] _]; subst. exact Hv.
Qed.

(** X4. Until the first call of [write], [output.frame] is [None] and no
    handler gets past [wait()]: none has been notified, none holds a frame or
    is sending a part, none has read anything, and what each has sent is an
    initial segment of the answer that [do_GET] gives before the loop. The
    [None] of the constructor is never sent. *)
Theorem nothing_sent_before_first_frame s i ss :
  reachable' s → version s = 0 → sessions s !! i = Some ss →
  frame s = None ∧
  seen ss = [] ∧
  (in_wait (ctl ss) = true → ctl ss = Waiting) ∧
  (∀ f, ctl ss ≠ Holding f) ∧
  (∀ f todo, ctl ss ≠ Part f todo) ∧
  ctl ss ≠ Closed Disconnected ∧
  sent ss `prefix_of` (get (req ss)).1.
Proof.
  intros Hreach Hv Hi.
  destruct (inv_reachable _ _ _ _ _ s Hreach) as [(Hf & _) Hall].
  assert (Hss : handler_inv s ss) by (eapply Forall_lookup_1; eauto).
  assert (Hlog : log_inv' ss).
  { eapply Forall_lookup_1; [apply log_inv_reachable|]; eauto. }
  assert (Hseen : seen ss = []).
  { destruct (seen ss) as [|vf rest] eqn:E; [reflexivity|].
    destruct (seen_published s ss vf Hss) as (H0 & Hle & _);
      [rewrite E; constructor | lia]. }
  assert (Hp : published s = []).
  { unfold version in Hv. now destruct (published s). }
  unfold log_inv in Hlog. destruct (get (req ss)) as [script stream]. simpl.
  pose proof (sent_prefix _ _ _ Hlog) as Hpre. rewrite Hseen in Hpre.
  change (parts (frames_of [])) with (@nil instr) in Hpre.
  rewrite app_nil_r in Hpre.
  destruct Hss as ((_ & Hw) & _).
  unfold sent_inv in Hlog.
  split; [now rewrite Hf, Hp|]. split; [exact Hseen|].
  split; [|split; [|split; [|split; [|exact Hpre]]]].
  - intros Hin. destruct (ctl ss); try discriminate Hin; [reflexivity|lia|lia].
  - intros f Hc. rewrite Hc in Hlog. destruct Hlog as (_ & v & rest & E & _).
    congruence.
  - intros f todo Hc. rewrite Hc in Hlog. destruct Hlog as (_ & v & rest & E & _).
    congruence.
  - intros Hc. rewrite Hc in Hlog.
    destruct Hlog as (_ & v & f & rest & op & todo & E & _). congruence.
Qed.

(** ** Which requests reach the loop *)

Lemma do_GET_no_stream r :
  path r ≠ "/stream.mjpg" → (get r).2 = false.
Proof.
  intros Hp. unfold do_GET.
  destruct (check_auth _ _ _ _ _); simpl; [|reflexivity].
  destruct (String.eqb (path r) "/" || String.eqb (path r) "/index.html");
    [reflexivity|].
  destruct (String.eqb_spec (path r) "/stream.mjpg"); [contradiction|reflexivity].
Qed.

(** X5. Only an authenticated request for exactly [/stream.mjpg] ever brings
    a handler to the loop. A handler found anywhere in lines 237-247, or
    closed by the [except] clause, serves such a request; a handler for any
    other path answers and returns without touching [output]: it never owns
    the lock, reads no frame, and sends an initial segment of its answer, the
    whole of it once [do_GET] has returned. *)
Theorem loop_only_for_stream_path s i ss :
  reachable' s → sessions s !! i = Some ss →
  (answering (ctl ss) = false ∨ ctl ss = Closed Disconnected →
     path (req ss) = "/stream.mjpg" ∧
     check_auth USERNAME PASSWORD b64decode decode_utf8 (Authorization (req ss)) = true) ∧
  (path (req ss) ≠ "/stream.mjpg" →
     answering (ctl ss) = true ∧
     owner s ≠ Some (Handler i) ∧
     seen ss = [] ∧
     sent ss `prefix_of` (get (req ss)).1 ∧
     (ctl ss = Closed Returned → sent ss = (get (req ss)).1)).
Proof.
  intros Hreach Hi.
  destruct (inv_reachable _ _ _ _ _ s Hreach) as [(_ & _ & Hl) _].
  assert (Hlog : log_inv' ss).
  { eapply Forall_lookup_1; [apply log_inv_reachable|]; eauto. }
  unfold log_inv in Hlog.
  destruct (get (req ss)) as [script stream] eqn:Hget.
  pose proof (sent_prefix _ _ _ Hlog) as Hpre.
  unfold sent_inv in Hlog.
  split.
  - intros Hc.
    assert (Hs : stream = true).
    { destruct Hc as [Hc|Hc].
      - destruct (ctl ss); try discriminate Hc; apply Hlog.
      - rewrite Hc in Hlog. apply Hlog. }
    subst stream.
    destruct (do_GET_stream _ _ _ _ _ _ _ Hget) as (_ & Hcheck & Hpath). auto.
  - intros Hp. pose proof (do_GET_no_stream (req ss) Hp) as Hns.
    rewrite Hget in Hns. simpl in Hns. subst stream. simpl.
    assert (Hseen : answering (ctl ss) = true ∧ seen ss = [] ∧
                    (ctl ss = Closed Returned → sent ss = script)).
    { destruct (ctl ss) as [todo st| | | | | |f|f todo|[]];
        try (destruct Hlog as [Hlog _]; discriminate Hlog).
      - destruct Hlog as (_ & _ & Hs). repeat split; auto. discriminate.
      - destruct Hlog as (_ & Hsent & Hs). repeat split; auto.
      - destruct Hlog as (Hs & _). repeat split; auto. discriminate. }
    destruct Hseen as (Ha & Hs & Hdone).
    rewrite Hs in Hpre. change (parts (frames_of [])) with (@nil instr) in Hpre.
    rewrite app_nil_r in Hpre.
    split; [exact Ha|]. split; [|split; [exact Hs|split; [exact Hpre|exact Hdone]]].
    intros Ho. apply Hl in Ho as (ss0 & Hi0 & Hh0).
    assert (ss0 = ss) by congruence. subst ss0.
    destruct (ctl ss); discriminate.
Qed.

(** ** Notification *)

Lemma notify_all_lookup l i ss :
  l !! i = Some ss → notify_all l !! i = Some (wake ss).
Proof. intros H. unfold notify_all. now rewrite list_lookup_fmap, H. Qed.

(** ** A client that connects *)




End MoreMachineProperties.

(** * Further properties of the start-up sequence *)

Lemma before_try_returns (w : world) :
  Forall (λ c, w c = None) before_try →
  w Picamera2 = None ∧ w create_video_configuration = None ∧
  w configure = None ∧ w StreamingOutput = None ∧ w JpegEncoder = None ∧
  w FileOutput = None ∧ w start_recording = None.
Proof.
  unfold before_try. intros H.
  repeat (apply Forall_cons in H as [? H]). auto 10.
Qed.

(** What [main] does once the camera records. *)
Lemma main_after_setup (w : world) :
  Forall (λ c, w c = None) before_try →
  main w [] =
  try_finally
    (call w StreamingServer ;;
     call w print ;; call w print ;; call w print ;; call w print ;;
     call w serve_forever)%proc
    (call w print)
    (call w stop_recording ;; call w stop)%proc
    before_try.
Proof.
  intros H. destruct (before_try_returns w H) as (H1 & H2 & H3 & H4 & H5 & H6 & H7).
  unfold main, seq at 1 2 3 4 5 6 7, call at 1 2 3 4 5 6 7.
  now rewrite H1, H2, H3, H4, H5, H6, H7.
Qed.


(** X10. When the server cannot be created (the port is taken, say),
    nothing is printed and no request is ever served, the camera is stopped,
    and the script ends with a non-zero status: with the constructor's own
    exception when the camera stops cleanly. *)
Theorem bind_failure_stops_camera (w : world) e :
  Forall (λ c, w c = None) before_try →
  w StreamingServer = Some e → e ≠ KeyboardInterrupt →
  calls serve_forever (main w []).1 = 0 ∧
  calls print (main w []).1 = 0 ∧
  calls stop_recording (main w []).1 = 1 ∧
  exit_status (main w []).2 ≠ 0 ∧
  (w stop_recording = None → w stop = None → (main w []).2 = Raise e).
Proof.
  intros Hsetup He Hne. rewrite (main_after_setup w Hsetup).
  unfold try_finally, seq, call. rewrite He.
  destruct e; try (now contradiction Hne); simpl;
    destruct (w stop_recording) as [[]|]; simpl;
    try (destruct (w stop) as [[]|]; simpl);
    repeat split; try discriminate; congruence.
Qed.

(** * Further properties of the request handler *)

(** ** The spellings of the scheme *)

Lemma lower_char_b c : lower_char c = "b"%char → c = "b"%char ∨ c = "B"%char.
Proof.
  destruct c as [[] [] [] [] [] [] [] []]; vm_compute; intros H;
    try discriminate H; auto.
Qed.

Lemma lower_char_a c : lower_char c = "a"%char → c = "a"%char ∨ c = "A"%char.
Proof.
  destruct c as [[] [] [] [] [] [] [] []]; vm_compute; intros H;
    try discriminate H; auto.
Qed.

Lemma lower_char_s c : lower_char c = "s"%char → c = "s"%char ∨ c = "S"%char.
Proof.
  destruct c as [[] [] [] [] [] [] [] []]; vm_compute; intros H;
    try discriminate H; auto.
Qed.

Lemma lower_char_i c : lower_char c = "i"%char → c = "i"%char ∨ c = "I"%char.
Proof.
  destruct c as [[] [] [] [] [] [] [] []]; vm_compute; intros H;
    try discriminate H; auto.
Qed.

Lemma lower_char_c c : lower_char c = "c"%char → c = "c"%char ∨ c = "C"%char.
Proof.
  destruct c as [[] [] [] [] [] [] [] []]; vm_compute; intros H;
    try discriminate H; auto.
Qed.

Lemma lower_basic scheme :
  lower scheme = "basic" ↔
  ∃ c1 c2 c3 c4 c5,
    scheme = String c1 (String c2 (String c3 (String c4 (String c5 "")))) ∧
    (c1 = "b"%char ∨ c1 = "B"%char) ∧ (c2 = "a"%char ∨ c2 = "A"%char) ∧
    (c3 = "s"%char ∨ c3 = "S"%char) ∧ (c4 = "i"%char ∨ c4 = "I"%char) ∧
    (c5 = "c"%char ∨ c5 = "C"%char).
Proof.
  split.
  - destruct scheme as [|c1 [|c2 [|c3 [|c4 [|c5 [|c6 rest]]]]]]; simpl;
      intros H; try discriminate H.
    inversion H as [[H1 H2 H3 H4 H5]].
    exists c1, c2, c3, c4, c5. split; [reflexivity|].
    rewrite H1, H2, H3, H4, H5.
    auto 10 using lower_char_b, lower_char_a, lower_char_s, lower_char_i, lower_char_c.
  - intros (c1 & c2 & c3 & c4 & c5 & -> & H1 & H2 & H3 & H4 & H5).
    destruct H1 as [-> | ->], H2 as [-> | ->], H3 as [-> | ->],
      H4 as [-> | ->], H5 as [-> | ->]; reflexivity.
Qed.

Section MoreAuthProperties.

Variable USERNAME PASSWORD : pystr.
Variable b64decode : string → result bytes.
Variable decode_utf8 : bytes → result pystr.
Variable html : bytes.

Local Abbreviation check := (check_auth USERNAME PASSWORD b64decode decode_utf8).
Local Abbreviation get := (do_GET USERNAME PASSWORD b64decode decode_utf8 html).

(** X11. The scheme that [check_auth] accepts is the word [basic] in any
    mixture of upper and lower case, thirty-two spellings in all, and nothing
    else: no other character, accented or not, is folded onto one of its
    letters by [lower()], and a header that validates begins with one of
    these spellings followed by a single space. *)
Theorem scheme_is_basic_in_any_case :
  (∀ scheme,
     lower scheme = "basic" ↔
     ∃ c1 c2 c3 c4 c5,
       scheme = String c1 (String c2 (String c3 (String c4 (String c5 "")))) ∧
       (c1 = "b"%char ∨ c1 = "B"%char) ∧ (c2 = "a"%char ∨ c2 = "A"%char) ∧
       (c3 = "s"%char ∨ c3 = "S"%char) ∧ (c4 = "i"%char ∨ c4 = "I"%char) ∧
       (c5 = "c"%char ∨ c5 = "C"%char)) ∧
  (∀ h, check (Some h) = true →
     ∃ c1 c2 c3 c4 c5 creds,
       h = String c1 (String c2 (String c3 (String c4 (String c5
             (String " " creds))))) ∧
       lower_char c1 = "b"%char ∧ lower_char c2 = "a"%char ∧
       lower_char c3 = "s"%char ∧ lower_char c4 = "i"%char ∧
       lower_char c5 = "c"%char).
Proof.
  split; [exact lower_basic|].
  intros h Hc.
  apply check_auth_true in Hc as (scheme & creds & raw & [= ->] & Hl & _).
  destruct scheme as [|c1 [|c2 [|c3 [|c4 [|c5 [|c6 rest]]]]]]; simpl in Hl;
    try discriminate Hl.
  inversion Hl. exists c1, c2, c3, c4, c5, creds. auto 10.
Qed.

(** ** Routing *)

Lemma append_longer x y : y ≠ "" → x +:+ y ≠ x.
Proof.
  intros Hy. induction x as [|c x IH]; simpl; [exact Hy|].
  intros [= H]. contradiction.
Qed.

(** After validation [self.path] is compared as a whole. *)
Lemma do_GET_routes r :
  check (Authorization r) = true →
  ((get r).2 = true ↔ path r = "/stream.mjpg") ∧
  (get r = not_found ↔
     path r ≠ "/" ∧ path r ≠ "/index.html" ∧ path r ≠ "/stream.mjpg") ∧
  (∀ suffix, suffix ≠ "" →
     path r = "/stream.mjpg" +:+ suffix ∨ path r = "/index.html" +:+ suffix →
     get r = not_found).
Proof.
  intros Hc.
  assert (Hroute : path r ≠ "/" → path r ≠ "/index.html" →
                   path r ≠ "/stream.mjpg" → get r = not_found).
  { intros H1 H2 H3. unfold do_GET. rewrite Hc. simpl.
    destruct (String.eqb_spec (path r) "/"); [contradiction|].
    destruct (String.eqb_spec (path r) "/index.html"); [contradiction|].
    destruct (String.eqb_spec (path r) "/stream.mjpg"); [contradiction|].
    reflexivity. }
  split; [|split].
  - split.
    + intros H. destruct (String.eqb_spec (path r) "/stream.mjpg") as [E|E];
        [exact E|].
      rewrite (do_GET_no_stream _ _ _ _ _ r E) in H. discriminate H.
    + intros E. unfold do_GET. rewrite Hc, E. reflexivity.
  - split.
    + unfold do_GET. rewrite Hc. simpl.
      destruct (String.eqb_spec (path r) "/"); [discriminate|].
      destruct (String.eqb_spec (path r) "/index.html"); [discriminate|].
      destruct (String.eqb_spec (path r) "/stream.mjpg"); [discriminate|].
      auto.
    + intros (H1 & H2 & H3). now apply Hroute.
  - intros suffix Hs [E|E]; apply Hroute; rewrite E;
      try (apply append_longer; exact Hs);
      destruct suffix; try (now contradiction Hs); discriminate.
Qed.

End MoreAuthProperties.

(** ** Request targets *)

Lemma lstrip_slashes n p :
  (∀ rest, p ≠ String "/" rest) → lstrip "/" (slashes n +:+ p) = p.
Proof.
  intros Hp. induction n as [|n IH]; [|exact IH].
  cbn [slashes]. change ("" +:+ p) with p.
  destruct p as [|c p]; [reflexivity|]. cbn [lstrip].
  destruct (Ascii.eqb_spec c "/") as [->|_]; [|reflexivity].
  exfalso. exact (Hp p eq_refl).
Qed.

Lemma lstrip_decompose s : ∃ n, s = slashes n +:+ lstrip "/" s.
Proof.
  induction s as [|c s [n IH]]; [exists 0; reflexivity|].
  cbn [lstrip]. destruct (Ascii.eqb_spec c "/") as [->|_].
  - exists (S n). cbn [slashes]. change (String "/" ?x +:+ ?y) with (String "/" (x +:+ y)).
    now rewrite <- IH.
  - exists 0. reflexivity.
Qed.

(** The targets that [parse_request] turns into a slash followed by [p]. *)
Lemma request_path_slash p target :
  (∀ rest, p ≠ String "/" rest) →
  request_path target = String "/" p ↔ ∃ n, target = slashes (S n) +:+ p.
Proof.
  intros Hp. split.
  - intros H. unfold request_path in H.
    destruct target as [|c1 [|c2 t]].
    + discriminate H.
    + exists 0. inversion H. reflexivity.
    + destruct (Ascii.eqb_spec c1 "/") as [->|N1]; cbn [andb] in H.
      * destruct (Ascii.eqb_spec c2 "/") as [->|N2].
        -- assert (E : lstrip "/" (String "/" (String "/" t)) = p)
             by (injection H; intros E0; exact E0).
           destruct (lstrip_decompose (String "/" (String "/" t))) as [n Hn].
           rewrite E in Hn. destruct n as [|n]; [|exists n; exact Hn].
           exfalso. change ("" +:+ p) with p in Hn. exact (Hp _ (eq_sym Hn)).
        -- exists 0. inversion H. reflexivity.
      * inversion H. contradiction.
  - intros [n ->]. destruct n as [|n].
    + cbn [slashes]. change (String "/" "" +:+ p) with (String "/" p).
      unfold request_path. destruct p as [|c p]; [reflexivity|].
      destruct (Ascii.eqb_spec c "/") as [->|_]; [|reflexivity].
      exfalso. exact (Hp p eq_refl).
    + change (slashes (S (S n)) +:+ p) with (String "/" (String "/" (slashes n +:+ p))).
      unfold request_path. cbn [Ascii.eqb andb].
      change (Ascii.eqb "/" "/") with true. cbn [andb]. f_equal.
      exact (lstrip_slashes (S (S n)) p Hp).
Qed.

Section Routing.

Variable USERNAME PASSWORD : pystr.
Variable b64decode : string → result bytes.
Variable decode_utf8 : bytes → result pystr.
Variable html : bytes.

Local Abbreviation check := (check_auth USERNAME PASSWORD b64decode decode_utf8).
Local Abbreviation get := (do_GET USERNAME PASSWORD b64decode decode_utf8 html).

(** X12. Routing by request target. [parse_request] reduces the leading
    slashes of a target that begins with two or more to one. So, after
    validation, the streaming loop is entered exactly for the targets made of
    one or more slashes followed by [stream.mjpg]; the landing page is sent
    exactly for one or more slashes, alone or followed by [index.html]; every
    other target gets the 404 answer, among them [/stream.mjpg] and
    [/index.html] followed by anything, a query string for instance. *)
Theorem routes_by_request_target header target :
  check header = true →
  ((get (parsed header target)).2 = true ↔
     ∃ n, target = slashes (S n) +:+ "stream.mjpg") ∧
  (get (parsed header target) =
     ([ send_response 200; send_header "Content-Type" "text/html";
        end_headers; wfile_write html ], false) ↔
     ∃ n, target = slashes (S n) ∨ target = slashes (S n) +:+ "index.html") ∧
  (get (parsed header target) = not_found ↔
     ∀ n, target ≠ slashes (S n) ∧
          target ≠ slashes (S n) +:+ "index.html" ∧
          target ≠ slashes (S n) +:+ "stream.mjpg") ∧
  (∀ suffix, suffix ≠ "" →
     get (parsed header ("/stream.mjpg" +:+ suffix)) = not_found ∧
     get (parsed header ("/index.html" +:+ suffix)) = not_found).
Proof.
  intros Hc.
  assert (Hroot : request_path target = "/" ↔ ∃ n, target = slashes (S n)).
  { rewrite (request_path_slash "" target) by discriminate.
    split; intros [n H]; exists n; rewrite H.
    - clear H. induction n as [|n IH]; [reflexivity|].
      change (slashes (S (S n)) +:+ "") with (String "/" (slashes (S n) +:+ "")).
      now rewrite IH.
    - clear H. induction n as [|n IH]; [reflexivity|].
      change (slashes (S (S n)) +:+ "") with (String "/" (slashes (S n) +:+ "")).
      now rewrite <- IH. }
  assert (Hindex : request_path target = "/index.html" ↔
                   ∃ n, target = slashes (S n) +:+ "index.html")
    by (apply request_path_slash; discriminate).
  assert (Hstream : request_path target = "/stream.mjpg" ↔
                    ∃ n, target = slashes (S n) +:+ "stream.mjpg")
    by (apply request_path_slash; discriminate).
  destruct (do_GET_routes USERNAME PASSWORD b64decode decode_utf8 html
              (parsed header target) Hc) as (R1 & R2 & _).
  cbn [parsed path] in R1, R2.
  split; [|split; [|split]].
  - rewrite R1. exact Hstream.
  - split.
    + intros H. unfold do_GET, parsed in H. cbn [Authorization path] in H.
      rewrite Hc in H. cbn [negb] in H.
      destruct (String.eqb_spec (request_path target) "/") as [E|N1].
      * apply Hroot in E as [n E]. exists n. now left.
      * destruct (String.eqb_spec (request_path target) "/index.html") as [E|N2].
        -- apply Hindex in E as [n E]. exists n. now right.
        -- cbn [orb] in H.
           destruct (String.eqb (request_path target) "/stream.mjpg"); discriminate H.
    + intros [n [E|E]]; unfold do_GET, parsed; cbn [Authorization path];
        rewrite Hc; cbn [negb].
      * assert (E' : request_path target = "/") by (apply Hroot; eauto).
        now rewrite E'.
      * assert (E' : request_path target = "/index.html") by (apply Hindex; eauto).
        now rewrite E'.
  - rewrite R2. split.
    + intros (N1 & N2 & N3) n. split; [|split]; intros E.
      * apply N1, Hroot. eauto.
      * apply N2, Hindex. eauto.
      * apply N3, Hstream. eauto.
    + intros H. split; [|split]; intros E.
      * apply Hroot in E as [n E]. now destruct (H n) as (N & _ & _).
      * apply Hindex in E as [n E]. now destruct (H n) as (_ & N & _).
      * apply Hstream in E as [n E]. now destruct (H n) as (_ & _ & N).
  - intros suffix Hs.
    split.
    + destruct (do_GET_routes USERNAME PASSWORD b64decode decode_utf8 html
                  (parsed header ("/stream.mjpg" +:+ suffix)) Hc) as (_ & _ & R3).
      apply (R3 suffix Hs). left. reflexivity.
    + destruct (do_GET_routes USERNAME PASSWORD b64decode decode_utf8 html
                  (parsed header ("/index.html" +:+ suffix)) Hc) as (_ & _ & R3).
      apply (R3 suffix Hs). right. reflexivity.
Qed.

End Routing.

(** * A credential sent by a conforming client *)

Lemma below_spec n x : (x < N.of_nat n)%N → In x (below n).
Proof.
  intros H. unfold below. rewrite <- (N2Nat.id x). apply in_map, in_seq. lia.
Qed.

Lemma forall_below n (P : N → bool) :
  forallb P (below n) = true → ∀ x, (x < N.of_nat n)%N → P x = true.
Proof.
  intros H x Hx. rewrite forallb_forall in H. apply H, below_spec, Hx.
Qed.

Lemma to_N_byte_of n : (n < 256)%N → Byte.to_N (PyLib.byte_of n) = n.
Proof.
  intros H. unfold PyLib.byte_of. rewrite N.mod_small by exact H.
  destruct (Byte.of_N n) as [x|] eqn:E.
  - now apply Byte.to_of_N.
  - apply Byte.of_N_None_iff in E. lia.
Qed.

Lemma byte_of_to_N x : PyLib.byte_of (Byte.to_N x) = x.
Proof.
  unfold PyLib.byte_of. pose proof (Byte.to_N_bounded x).
  rewrite N.mod_small by lia. now rewrite Byte.of_to_N.
Qed.

Lemma digits_ok d : (d < 64)%N → digit_ok d = true.
Proof. apply (forall_below 64). vm_compute. reflexivity. Qed.

Lemma pairs_ok a b : (a < 256)%N → (b < 256)%N → pair_ok a b = true.
Proof.
  intros Ha Hb.
  assert (H : forallb (λ x, forallb (pair_ok x) (below 256)) (below 256) = true)
    by (vm_compute; reflexivity).
  pose proof (forall_below 256 _ H a Ha) as H1. cbv beta in H1.
  exact (forall_below 256 _ H1 b Hb).
Qed.

Lemma a2b_digit q left pads d rest :
  (d < 64)%N →
  PyLib.a2b_base64 q left pads (Client.b64_char d :: rest) =
  match q with
  | 0 => PyLib.a2b_base64 1 d 0 rest
  | 1 =>
      let* out := PyLib.a2b_base64 2 (N.land d 15) 0 rest in
      Return (PyLib.byte_of (N.lor (N.shiftl left 2) (N.shiftr d 4)) :: out)
  | 2 =>
      let* out := PyLib.a2b_base64 3 (N.land d 3) 0 rest in
      Return (PyLib.byte_of (N.lor (N.shiftl left 4) (N.shiftr d 2)) :: out)
  | _ =>
      let* out := PyLib.a2b_base64 0 0 0 rest in
      Return (PyLib.byte_of (N.lor (N.shiftl left 6) d) :: out)
  end.
Proof.
  intros Hd. pose proof (digits_ok d Hd) as H. unfold digit_ok in H.
  apply andb_true_iff in H as [H _]. apply andb_true_iff in H as [H1 H2].
  apply negb_true_iff in H1.
  destruct (PyLib.b64_value (Client.b64_char d)) as [v|] eqn:Ev; [|discriminate H2].
  apply N.eqb_eq in H2. subst v.
  cbn [PyLib.a2b_base64]. rewrite H1, Ev. reflexivity.
Qed.

Lemma pair_facts a b :
  (a < 256)%N → (b < 256)%N →
  (N.lor (N.shiftl (a / 4) 2) (N.shiftr (a mod 4 * 16 + b / 16) 4) = a ∧
   N.land (a mod 4 * 16 + b / 16) 15 = b / 16 ∧
   N.lor (N.shiftl (a / 16) 4) (N.shiftr (a mod 16 * 4 + b / 64) 2) = a ∧
   N.land (a mod 16 * 4 + b / 64) 3 = b / 64 ∧
   N.lor (N.shiftl (a / 64) 6) (a mod 64) = a ∧
   N.lor (N.shiftl (a / 4) 2) (N.shiftr (a mod 4 * 16) 4) = a ∧
   N.lor (N.shiftl (a / 16) 4) (N.shiftr (a mod 16 * 4) 2) = a ∧
   a / 4 < 64 ∧ a mod 4 * 16 + b / 16 < 64 ∧
   a mod 16 * 4 + b / 64 < 64 ∧ a mod 64 < 64 ∧
   a mod 4 * 16 < 64 ∧ a mod 16 * 4 < 64)%N.
Proof.
  intros Ha Hb. pose proof (pairs_ok a b Ha Hb) as H. unfold pair_ok in H.
  repeat (apply andb_true_iff in H as [H ?]).
  repeat match goal with
         | E : (_ =? _)%N = true |- _ => apply N.eqb_eq in E
         | E : (_ <? _)%N = true |- _ => apply N.ltb_lt in E
         end.
  repeat (split; [assumption|]). assumption.
Qed.

Lemma to_N_256 x : (Byte.to_N x < 256)%N.
Proof. pose proof (Byte.to_N_bounded x). lia. Qed.

Lemma a2b_encode_le n bs :
  length bs ≤ n → PyLib.a2b_base64 0 0 0 (Client.b64encode bs) = Return bs.
Proof.
  revert bs. induction n as [|n IH]; intros bs Hlen.
  - destruct bs; [reflexivity | simpl in Hlen; lia].
  - destruct bs as [|x [|y [|z rest]]]; [reflexivity|..].
    + (* one octet: two digits and two pads *)
      cbn [Client.b64encode].
      destruct (pair_facts (Byte.to_N x) 0 (to_N_256 x) eq_refl)
        as (_ & _ & _ & _ & _ & F1 & _ & B1 & _ & _ & _ & B2 & _).
      rewrite (a2b_digit _ _ _ _ _ B1), (a2b_digit _ _ _ _ _ B2).
      cbn [PyLib.a2b_base64 Ascii.eqb Nat.leb Nat.add rbind]. simpl.
      now rewrite F1, byte_of_to_N.
    + (* two octets: three digits and one pad *)
      cbn [Client.b64encode].
      destruct (pair_facts (Byte.to_N x) (Byte.to_N y) (to_N_256 x) (to_N_256 y))
        as (F1 & F2 & _ & _ & _ & _ & _ & B1 & B2 & _).
      destruct (pair_facts (Byte.to_N y) 0 (to_N_256 y) eq_refl)
        as (_ & _ & _ & _ & _ & _ & F3 & _ & _ & _ & _ & _ & B3).
      rewrite (a2b_digit _ _ _ _ _ B1), (a2b_digit _ _ _ _ _ B2),
        (a2b_digit _ _ _ _ _ B3).
      cbn [PyLib.a2b_base64 Ascii.eqb Nat.leb Nat.add rbind]. simpl.
      now rewrite F1, F2, F3, !byte_of_to_N.
    + (* three octets: four digits *)
      cbn [Client.b64encode].
      destruct (pair_facts (Byte.to_N x) (Byte.to_N y) (to_N_256 x) (to_N_256 y))
        as (F1 & F2 & _ & _ & _ & _ & _ & B1 & B2 & _).
      destruct (pair_facts (Byte.to_N y) (Byte.to_N z) (to_N_256 y) (to_N_256 z))
        as (_ & _ & F3 & F4 & _ & _ & _ & _ & _ & B3 & _).
      destruct (pair_facts (Byte.to_N z) 0 (to_N_256 z) eq_refl)
        as (_ & _ & _ & _ & F5 & _ & _ & _ & _ & _ & B4 & _).
      rewrite (a2b_digit _ _ _ _ _ B1), (a2b_digit _ _ _ _ _ B2),
        (a2b_digit _ _ _ _ _ B3), (a2b_digit _ _ _ _ _ B4).
      rewrite IH by (simpl in Hlen; lia).
      cbn [rbind]. now rewrite F1, F2, F3, F4, F5, !byte_of_to_N.
Qed.

Lemma b64encode_ascii bs :
  forallb (λ c, (N_of_ascii c <? 128)%N) (Client.b64encode bs) = true.
Proof.
  assert (Hd : ∀ d, (d < 64)%N → (N_of_ascii (Client.b64_char d) <? 128)%N = true).
  { intros d Hd. pose proof (digits_ok d Hd) as H. unfold digit_ok in H.
    now apply andb_true_iff in H as [_ H]. }
  assert (H : ∀ n bs, length bs ≤ n →
              forallb (λ c, (N_of_ascii c <? 128)%N) (Client.b64encode bs) = true).
  { clear bs. induction n as [|n IH]; intros bs Hlen.
    - destruct bs; [reflexivity | simpl in Hlen; lia].
    - destruct bs as [|x [|y [|z rest]]]; [reflexivity|..]; cbn [Client.b64encode forallb].
      + destruct (pair_facts (Byte.to_N x) 0 (to_N_256 x) eq_refl)
          as (_ & _ & _ & _ & _ & _ & _ & B1 & _ & _ & _ & B2 & _).
        now rewrite (Hd _ B1), (Hd _ B2).
      + destruct (pair_facts (Byte.to_N x) (Byte.to_N y) (to_N_256 x) (to_N_256 y))
          as (_ & _ & _ & _ & _ & _ & _ & B1 & B2 & _).
        destruct (pair_facts (Byte.to_N y) 0 (to_N_256 y) eq_refl)
          as (_ & _ & _ & _ & _ & _ & _ & _ & _ & _ & _ & _ & B3).
        now rewrite (Hd _ B1), (Hd _ B2), (Hd _ B3).
      + destruct (pair_facts (Byte.to_N x) (Byte.to_N y) (to_N_256 x) (to_N_256 y))
          as (_ & _ & _ & _ & _ & _ & _ & B1 & B2 & _).
        destruct (pair_facts (Byte.to_N y) (Byte.to_N z) (to_N_256 y) (to_N_256 z))
          as (_ & _ & _ & _ & _ & _ & _ & _ & _ & B3 & _).
        destruct (pair_facts (Byte.to_N z) 0 (to_N_256 z) eq_refl)
          as (_ & _ & _ & _ & _ & _ & _ & _ & _ & _ & B4 & _).
        rewrite (Hd _ B1), (Hd _ B2), (Hd _ B3), (Hd _ B4). simpl.
        apply IH. simpl in Hlen. lia. }
  exact (H (length bs) bs (le_n _)).
Qed.

Lemma b64decode_encode bs :
  PyLib.b64decode (string_of_list_ascii (Client.b64encode bs)) = Return bs.
Proof.
  unfold PyLib.b64decode. rewrite list_ascii_of_string_of_list_ascii.
  rewrite b64encode_ascii. apply (a2b_encode_le (length bs)). lia.
Qed.

Lemma in_range_true lo hi x :
  (lo ≤ Byte.to_N x ≤ hi)%N → PyLib.in_range lo hi x = true.
Proof.
  intros [H1 H2]. unfold PyLib.in_range.
  apply andb_true_iff. split; now apply N.leb_le.
Qed.

Lemma in_range_false lo hi x :
  (Byte.to_N x < lo ∨ hi < Byte.to_N x)%N → PyLib.in_range lo hi x = false.
Proof.
  intros H. unfold PyLib.in_range. apply andb_false_iff.
  destruct H; [left|right]; now apply N.leb_gt.
Qed.

Lemma cont_Some x :
  (128 ≤ Byte.to_N x ≤ 191)%N → PyLib.cont x = Some (Byte.to_N x - 128)%N.
Proof.
  intros H. unfold PyLib.cont. fold (PyLib.in_range 128 191 x).
  now rewrite in_range_true.
Qed.

Lemma decode_utf8_1 b0 r :
  (Byte.to_N b0 < 128)%N →
  PyLib.decode_utf8 (b0 :: r) =
  let* s := PyLib.decode_utf8 r in Return (Byte.to_N b0 :: s).
Proof.
  intros H. cbn [PyLib.decode_utf8].
  now destruct (N.ltb_spec (Byte.to_N b0) 128); [|lia].
Qed.

Lemma decode_utf8_2 b0 b1 r :
  (194 ≤ Byte.to_N b0 ≤ 223)%N → (128 ≤ Byte.to_N b1 ≤ 191)%N →
  PyLib.decode_utf8 (b0 :: b1 :: r) =
  let* s := PyLib.decode_utf8 r in
  Return (((Byte.to_N b0 - 192) * 64 + (Byte.to_N b1 - 128))%N :: s).
Proof.
  intros H0 H1. remember (b1 :: r) as r0 eqn:E. cbn [PyLib.decode_utf8].
  destruct (N.ltb_spec (Byte.to_N b0) 128); [lia|].
  rewrite in_range_true by lia. subst r0.
  now rewrite cont_Some.
Qed.

Lemma decode_utf8_3 b0 b1 b2 r :
  let cp := (((Byte.to_N b0 - 224) * 64 + (Byte.to_N b1 - 128)) * 64 +
             (Byte.to_N b2 - 128))%N in
  (224 ≤ Byte.to_N b0 ≤ 239)%N → (128 ≤ Byte.to_N b1 ≤ 191)%N →
  (128 ≤ Byte.to_N b2 ≤ 191)%N →
  (2048 ≤ cp)%N → (cp < 55296 ∨ 57343 < cp)%N →
  PyLib.decode_utf8 (b0 :: b1 :: b2 :: r) =
  let* s := PyLib.decode_utf8 r in Return (cp :: s).
Proof.
  intros cp H0 H1 H2 Hlo Hsur. remember (b1 :: b2 :: r) as r0 eqn:E.
  cbn [PyLib.decode_utf8].
  destruct (N.ltb_spec (Byte.to_N b0) 128); [lia|].
  rewrite in_range_false, in_range_true by lia. subst r0.
  rewrite !cont_Some by assumption. fold cp.
  destruct (N.ltb_spec cp 2048); [lia|].
  destruct (N.leb_spec 55296 cp), (N.leb_spec cp 57343); try lia; reflexivity.
Qed.

Lemma decode_utf8_4 b0 b1 b2 b3 r :
  let cp := ((((Byte.to_N b0 - 240) * 64 + (Byte.to_N b1 - 128)) * 64 +
              (Byte.to_N b2 - 128)) * 64 + (Byte.to_N b3 - 128))%N in
  (240 ≤ Byte.to_N b0 ≤ 244)%N → (128 ≤ Byte.to_N b1 ≤ 191)%N →
  (128 ≤ Byte.to_N b2 ≤ 191)%N → (128 ≤ Byte.to_N b3 ≤ 191)%N →
  (65536 ≤ cp ≤ 1114111)%N →
  PyLib.decode_utf8 (b0 :: b1 :: b2 :: b3 :: r) =
  let* s := PyLib.decode_utf8 r in Return (cp :: s).
Proof.
  intros cp H0 H1 H2 H3 Hcp. remember (b1 :: b2 :: b3 :: r) as r0 eqn:E.
  cbn [PyLib.decode_utf8].
  destruct (N.ltb_spec (Byte.to_N b0) 128); [lia|].
  rewrite !in_range_false, in_range_true by lia. subst r0.
  rewrite !cont_Some by assumption. fold cp.
  destruct (N.ltb_spec cp 65536); [lia|].
  destruct (N.ltb_spec 1114111 cp); [lia|]. reflexivity.
Qed.

Section Utf8.

Local Ltac Zify.zify_post_hook ::= Z.to_euclidean_division_equations.

Lemma decode_encode_codepoint cp rest :
  Client.scalar cp = true →
  PyLib.decode_utf8 (Client.encode_codepoint cp ++ rest) =
  let* s := PyLib.decode_utf8 rest in Return (cp :: s).
Proof.
  unfold Client.scalar, Client.encode_codepoint. intros Hs.
  assert (Hcp : (cp < 55296 ∨ 57343 < cp ≤ 1114111)%N).
  { apply orb_true_iff in Hs as [H|H].
    - left. now apply N.ltb_lt.
    - right. apply andb_true_iff in H as [H1 H2].
      apply N.ltb_lt in H1. apply N.leb_le in H2. lia. }
  clear Hs.
  destruct (N.ltb_spec cp 128); [|destruct (N.ltb_spec cp 2048);
    [|destruct (N.ltb_spec cp 65536)]]; cbn [app].
  - rewrite decode_utf8_1; rewrite to_N_byte_of by lia; [reflexivity | lia].
  - rewrite decode_utf8_2; rewrite !to_N_byte_of by lia; [|lia..].
    destruct (PyLib.decode_utf8 rest); cbn [rbind]; [do 2 f_equal; lia | reflexivity].
  - rewrite decode_utf8_3; cbv zeta; rewrite !to_N_byte_of by lia; [|lia..].
    destruct (PyLib.decode_utf8 rest); cbn [rbind]; [do 2 f_equal; lia | reflexivity].
  - rewrite decode_utf8_4; cbv zeta; rewrite !to_N_byte_of by lia; [|lia..].
    destruct (PyLib.decode_utf8 rest); cbn [rbind]; [do 2 f_equal; lia | reflexivity].
Qed.

End Utf8.

Lemma decode_encode_utf8 s :
  Forall (λ cp, Client.scalar cp = true) s →
  PyLib.decode_utf8 (Client.encode_utf8 s) = Return s.
Proof.
  induction 1 as [|cp s Hcp _ IH]; [reflexivity|].
  unfold Client.encode_utf8. cbn [flat_map]. fold (Client.encode_utf8 s).
  now rewrite (decode_encode_codepoint _ _ Hcp), IH.
Qed.

Section RoundTrip.

Variable USERNAME PASSWORD : pystr.

(** X13. A header built the way a conforming client builds it, [Basic]
    followed by the base64 form of the UTF-8 octets of [user:pass], validates
    exactly when both parts are the configured ones. The user name holds no
    colon, as a client cannot send one that does; both parts are text, that
    is, hold no surrogate. The decoders are the executable ones of [PyLib]. *)
Theorem encoded_credentials_validate user pass :
  Forall (λ cp, Client.scalar cp = true) (user ++ pass) → COLON ∉ user →
  check_auth USERNAME PASSWORD PyLib.b64decode PyLib.decode_utf8
    (Some (Client.basic_header user pass)) = true ↔
  user = USERNAME ∧ pass = PASSWORD.
Proof.
  intros Hs Hu. unfold Client.basic_header.
  change ("Basic " +:+ ?x) with ("Basic" +:+ String " " x).
  rewrite check_auth_two_words by (vm_compute; absent).
  change (String.eqb (lower "Basic") "basic") with true. cbv iota.
  rewrite b64decode_encode. cbn [rbind].
  rewrite decode_encode_utf8.
  2:{ apply Forall_app in Hs as [H1 H2]. apply Forall_app. split; [exact H1|].
      apply Forall_cons. split; [reflexivity | exact H2]. }
  cbn [rbind]. rewrite (usplit1_first _ _ _ Hu). cbn [unpack2 rbind try_except].
  rewrite andb_true_iff, !pystr_eqb_true. reflexivity.
Qed.

End RoundTrip.

(** * One connection at a time *)

Lemma closed_wake ss : closed (ctl (wake ss)) = closed (ctl ss).
Proof. unfold wake. now destruct (ctl ss) eqn:C; simpl; rewrite ?C. Qed.

Lemma handler_next_open s i ss : closed (ctl ss) = true → handler_next s i ss = None.
Proof. unfold handler_next. now destruct (ctl ss). Qed.

Lemma handler_break_open ss : closed (ctl ss) = true → handler_break ss = None.
Proof. unfold handler_break. now destruct (ctl ss). Qed.

Lemma part_Some_no_raise buf e : raise e ∉ part (Some buf).
Proof.
  intros H. unfold part in H. simpl in H.
  repeat (apply elem_of_cons in H as [H|H]; [discriminate H|]).
  now apply elem_of_nil in H.
Qed.

Lemma parts_Some_no_raise bufs e : raise e ∉ parts (map Some bufs).
Proof.
  induction bufs as [|buf bufs IH]; intros H.
  - now apply elem_of_nil in H.
  - change (parts (map Some (buf :: bufs)))
      with (part (Some buf) ++ parts (map Some bufs)) in H.
    apply elem_of_app in H as [H|H]; [exact (part_Some_no_raise _ _ H) | exact (IH H)].
Qed.

Lemma stream_head_no_raise e : raise e ∉ stream_head.
Proof.
  intros H. unfold stream_head in H.
  repeat (apply elem_of_cons in H as [H|H]; [discriminate H|]).
  now apply elem_of_nil in H.
Qed.

Section ServerProperties.

Variable USERNAME PASSWORD : pystr.
Variable b64decode : string → result bytes.
Variable decode_utf8 : bytes → result pystr.
Variable html : bytes.

Local Abbreviation get := (do_GET USERNAME PASSWORD b64decode decode_utf8 html).
Local Abbreviation exec' := (exec USERNAME PASSWORD b64decode decode_utf8 html).
Local Abbreviation run' := (run USERNAME PASSWORD b64decode decode_utf8 html).
Local Abbreviation reachable' := (reachable USERNAME PASSWORD b64decode decode_utf8 html).
Local Abbreviation serve' := (serve USERNAME PASSWORD b64decode decode_utf8 html).
Local Abbreviation serve_run' := (serve_run USERNAME PASSWORD b64decode decode_utf8 html).
Local Abbreviation served' := (served USERNAME PASSWORD b64decode decode_utf8 html).

Lemma serve_exec a s s' : serve' a s = Some s' → exec' a s = Some s'.
Proof.
  destruct a; try (intros H; exact H).
  unfold serve. destruct (idle s); [intros H; exact H | discriminate].
Qed.

Lemma serve_run_run sched s s' : serve_run' sched s = Some s' → run' sched s = Some s'.
Proof.
  revert s. induction sched as [|a l IH]; intros s; [intros H; exact H|].
  cbn [serve_run run]. destruct (serve' a s) as [s1|] eqn:E; [|discriminate].
  rewrite (serve_exec _ _ _ E). apply IH.
Qed.

Lemma served_reachable s : served' s → reachable' s.
Proof. intros [sched H]. exists sched. now apply serve_run_run. Qed.

Lemma serve_run_app l1 l2 s :
  serve_run' (l1 ++ l2) s = serve_run' l1 s ≫= serve_run' l2.
Proof.
  revert s. induction l1 as [|a l1 IH]; intros s; [reflexivity|].
  cbn [app serve_run]. destruct (serve' a s) as [s1|]; [apply IH | reflexivity].
Qed.

Lemma served_step a s s' : served' s → serve' a s = Some s' → served' s'.
Proof.
  intros [sched H] E. exists (sched ++ [a]).
  rewrite serve_run_app, H. cbn. now rewrite E.
Qed.

Lemma served_invariant (P : state → Prop) :
  P init →
  (∀ a s s', served' s → P s → serve' a s = Some s' → P s') →
  ∀ s, served' s → P s.
Proof.
  intros H0 Hstep s [sched H].
  assert (G : ∀ l s0 s1, served' s0 → P s0 → serve_run' l s0 = Some s1 → P s1).
  { induction l as [|a l IH]; intros s0 s1 Hs0 Hp Hr.
    - inversion Hr. now subst.
    - cbn [serve_run] in Hr. destruct (serve' a s0) as [s2|] eqn:E; [|discriminate].
      apply (IH s2 s1); [eapply served_step; eauto | eapply Hstep; eauto | exact Hr]. }
  apply (G sched init s); [exists []; reflexivity | exact H0 | exact H].
Qed.

Lemma idle_closed s i ss :
  idle s = true → sessions s !! i = Some ss → closed (ctl ss) = true.
Proof.
  unfold idle. rewrite forallb_forall. intros H Hi.
  apply H. apply list_elem_of_In. eapply list_elem_of_lookup_2; eauto.
Qed.

Lemma open_not_idle s i ss :
  sessions s !! i = Some ss → closed (ctl ss) = false → idle s = false.
Proof.
  intros Hi Hc. destruct (idle s) eqn:E; [|reflexivity].
  rewrite (idle_closed _ _ _ E Hi) in Hc. discriminate.
Qed.

(** X6. The server handles one connection at a time. In every state of the
    process as [serve_forever] runs it, a handler that has not left [do_GET]
    is the one created last, so no two handlers are alive together; and while
    one is alive, no connection is accepted. These states are among the
    reachable ones, of which the invariants above are proved. *)
Theorem one_connection_at_a_time s :
  served' s →
  reachable' s ∧
  (∀ i ss, sessions s !! i = Some ss → closed (ctl ss) = false →
           S i = length (sessions s)) ∧
  (∀ i j si sj,
     sessions s !! i = Some si → sessions s !! j = Some sj →
     closed (ctl si) = false → closed (ctl sj) = false → i = j) ∧
  (idle s = false → ∀ r, serve' (Accept r) s = None).
Proof.
  intros Hs.
  assert (H1 : ∀ i ss, sessions s !! i = Some ss → closed (ctl ss) = false →
                       S i = length (sessions s)).
  { revert s Hs.
    apply (served_invariant
             (λ s, ∀ i ss, sessions s !! i = Some ss → closed (ctl ss) = false →
                           S i = length (sessions s))).
    - intros i ss Hi. discriminate Hi.
    - intros a s s' _ IH E i ss Hi Hc. destruct a as [r|k|k|buf|].
      + unfold serve in E. destruct (idle s) eqn:I; [|discriminate].
        inversion E; subst s'; clear E. cbn [sessions] in *.
        rewrite length_app. cbn [length].
        apply lookup_app_Some in Hi as [Hi|[Hlen Hi]].
        * rewrite (idle_closed _ _ _ I Hi) in Hc. discriminate.
        * destruct (i - length (sessions s)) eqn:D; [lia|discriminate Hi].
      + cbn in E. destruct (sessions s !! k) as [sk|] eqn:Hk; [|discriminate].
        cbn in E. destruct (handler_next s k sk) as [[sk' o]|] eqn:Hn; [|discriminate].
        inversion E; subst s'; clear E. cbn [sessions] in *.
        rewrite length_insert. destruct (decide (i = k)) as [->|Hne].
        * apply (IH k sk Hk). destruct (closed (ctl sk)) eqn:C; [|reflexivity].
          rewrite (handler_next_open _ _ _ C) in Hn. discriminate.
        * rewrite list_lookup_insert_ne in Hi by auto. now apply (IH i ss).
      + cbn in E. destruct (sessions s !! k) as [sk|] eqn:Hk; [|discriminate].
        cbn in E. destruct (handler_break sk) as [sk'|] eqn:Hn; [|discriminate].
        inversion E; subst s'; clear E. cbn [sessions] in *.
        rewrite length_insert. destruct (decide (i = k)) as [->|Hne].
        * apply (IH k sk Hk). destruct (closed (ctl sk)) eqn:C; [|reflexivity].
          rewrite (handler_break_open _ C) in Hn. discriminate.
        * rewrite list_lookup_insert_ne in Hi by auto. now apply (IH i ss).
      + cbn in E. unfold write in E.
        destruct (capture s); try discriminate. destruct (owner s); [discriminate|].
        inversion E; subst s'; clear E. now apply (IH i ss).
      + cbn in E. unfold write_next in E.
        destruct (capture s); try discriminate;
          inversion E; subst s'; clear E; cbn [sessions] in *;
          try (now apply (IH i ss)).
        unfold notify_all in *. rewrite length_map.
        rewrite list_lookup_fmap in Hi.
        destruct (sessions s !! i) as [s0|] eqn:H0; [|discriminate].
        inversion Hi; subst ss. rewrite closed_wake in Hc. now apply (IH i s0). }
  split; [now apply served_reachable|]. split; [exact H1|]. split.
  - intros i j si sj Hi Hj Ci Cj.
    pose proof (H1 i si Hi Ci). pose proof (H1 j sj Hj Cj). lia.
  - intros I r. unfold serve. now rewrite I.
Qed.

(** While the handler of a stream is alive, each of its statements leaves it
    alive. *)
Lemma open_stream_step s i ss ss' o :
  reachable' s → sessions s !! i = Some ss →
  get (req ss) = (stream_head, true) → closed (ctl ss) = false →
  handler_next s i ss = Some (ss', o) →
  closed (ctl ss') = false.
Proof.
  intros Hr Hi Hg Hc Hn.
  pose proof (log_inv_reachable _ _ _ _ _ _ Hr) as Hlog.
  pose proof (Forall_lookup_1 _ _ _ _ Hlog Hi) as Hl. unfold log_inv in Hl.
  rewrite Hg in Hl.
  pose proof (inv_reachable _ _ _ _ _ _ Hr) as [_ Hh].
  pose proof (Forall_lookup_1 _ _ _ _ Hh Hi) as Hinv.
  unfold handler_next in Hn. unfold sent_inv in Hl.
  destruct (ctl ss) as [todo st| | | | | |f|f todo|how] eqn:C; try discriminate Hc.
  - destruct Hl as (-> & Hs & _).
    destruct todo as [|op todo].
    + inversion Hn. reflexivity.
    + assert (Hin : op ∈ stream_head).
      { rewrite <- Hs. apply elem_of_app. right. now left. }
      destruct op; inversion Hn; try reflexivity.
      exfalso. exact (stream_head_no_raise _ Hin).
  - destruct (owner s); inversion Hn. reflexivity.
  - inversion Hn. reflexivity.
  - discriminate Hn.
  - destruct (owner s); inversion Hn. reflexivity.
  - inversion Hn. reflexivity.
  - inversion Hn. reflexivity.
  - destruct Hl as (_ & v & rest & Hseen & Hs).
    destruct todo as [|op todo].
    + inversion Hn. reflexivity.
    + destruct (frames_published s ss Hinv) as (bufs & Hf & _).
      rewrite Hseen, frames_of_cons in Hf.
      assert (Hin : op ∈ stream_head ++ parts (map Some bufs)).
      { rewrite <- Hf, parts_snoc, <- Hs. apply elem_of_app. right. now left. }
      destruct op; inversion Hn; try reflexivity.
      exfalso. apply elem_of_app in Hin as [Hin|Hin].
      * exact (stream_head_no_raise _ Hin).
      * exact (parts_Some_no_raise _ _ Hin).
Qed.

(** X14. A stream keeps every other client out. While the handler of an
    authorised request for [/stream.mjpg] is alive and no write to its socket
    fails, whatever the capture thread and the handler do, the handler stays
    alive, no connection is accepted, and the next one cannot be. *)
Theorem stream_blocks_the_server s i ss sched s' :
  served' s → sessions s !! i = Some ss →
  check_auth USERNAME PASSWORD b64decode decode_utf8 (Authorization (req ss)) = true →
  path (req ss) = "/stream.mjpg" → closed (ctl ss) = false →
  Forall (λ a, ∀ j, a ≠ Break j) sched →
  serve_run' sched s = Some s' →
  Forall (λ a, ∀ r, a ≠ Accept r) sched ∧
  length (sessions s') = length (sessions s) ∧
  (∃ ss', sessions s' !! i = Some ss' ∧ req ss' = req ss ∧ closed (ctl ss') = false) ∧
  (∀ r, serve' (Accept r) s' = None).
Proof.
  revert s ss. induction sched as [|a l IH]; intros s ss Hs Hi Hauth Hpath Hc Hnb Hrun.
  - inversion Hrun; subst s'. split; [constructor|]. split; [reflexivity|].
    split; [exists ss; auto|].
    intros r. unfold serve. now rewrite (open_not_idle _ _ _ Hi Hc).
  - cbn [serve_run] in Hrun. destruct (serve' a s) as [s1|] eqn:E; [|discriminate].
    cbn in Hrun. apply Forall_cons in Hnb as [Ha Hnb].
    assert (Hs1 : served' s1) by (eapply served_step; eauto).
    assert (Hg : get (req ss) = (stream_head, true))
      by (unfold do_GET; now rewrite Hauth, Hpath).
    assert (Hstep : (∀ r, a ≠ Accept r) ∧ length (sessions s1) = length (sessions s) ∧
                    ∃ ss1, sessions s1 !! i = Some ss1 ∧ req ss1 = req ss ∧
                           closed (ctl ss1) = false).
    { destruct a as [r|k|k|buf|].
      - unfold serve in E. rewrite (open_not_idle _ _ _ Hi Hc) in E. discriminate.
      - split; [discriminate|].
        cbn in E. destruct (sessions s !! k) as [sk|] eqn:Hk; [|discriminate].
        cbn in E. destruct (handler_next s k sk) as [[sk' o]|] eqn:Hn; [|discriminate].
        inversion E; subst s1; clear E. cbn [sessions].
        split; [apply length_insert|].
        destruct (decide (i = k)) as [->|Hne].
        + assert (sk = ss) by congruence. subst sk.
          exists sk'. split; [apply list_lookup_insert_eq; eapply lookup_lt_Some; eauto|].
          split; [eapply handler_next_req; eauto|].
          eapply open_stream_step; eauto. now apply served_reachable.
        + exists ss. rewrite list_lookup_insert_ne by auto. auto.
      - exfalso. exact (Ha k eq_refl).
      - split; [discriminate|]. cbn in E. unfold write in E.
        destruct (capture s); try discriminate. destruct (owner s); [discriminate|].
        inversion E; subst s1; clear E. cbn [sessions]. split; [reflexivity|].
        exists ss. auto.
      - split; [discriminate|]. cbn in E. unfold write_next in E.
        destruct (capture s); try discriminate;
          inversion E; subst s1; clear E; cbn [sessions];
          try (split; [reflexivity|]; exists ss; now auto).
        split; [unfold notify_all; apply length_map|].
        exists (wake ss). split; [now apply notify_all_lookup|].
        split; [apply wake_req | now rewrite closed_wake]. }
    destruct Hstep as (Hna & Hlen & ss1 & Hi1 & Hr1 & Hc1).
    destruct (IH s1 ss1 Hs1 Hi1) as (Hacc & Hlen' & (ss' & Hi' & Hr' & Hc') & Hno);
      try rewrite Hr1; auto.
    split; [constructor; auto|]. split; [congruence|].
    split; [|exact Hno]. exists ss'. split; [exact Hi'|]. split; [congruence|exact Hc'].
Qed.

End ServerProperties.

(** ** The further properties at concrete runs *)

Lemma lock_is_exclusive_witness :
  Demo.reach Demo.relocked_state ∧
  sessions Demo.relocked_state !! 0 = Some Demo.relocked_handler ∧
  holds_lock (ctl Demo.relocked_handler) = true ∧
  owner Demo.relocked_state = Some (Handler 0) ∧
  capture Demo.relocked_state = Idle.
Proof.
  assert (Hreach : Demo.reach Demo.relocked_state).
  { apply (reach_run Demo.to_relocked). vm_compute. reflexivity. }
  split; [exact Hreach|]. split; [reflexivity|]. split; [reflexivity|].
  destruct (lock_is_exclusive _ _ _ _ _ _ Hreach) as (_ & H & _).
  exact (H 0 Demo.relocked_handler eq_refl eq_refl).
Defined.

Lemma lock_held_briefly_witness :
  Demo.reach Demo.relocked_state ∧
  owner Demo.relocked_state = Some (Handler 0) ∧
  ∃ n s',
    0 < n ∧ n ≤ 2 ∧
    Demo.go (repeat (Step 0) n) Demo.relocked_state = Some s' ∧
    owner s' = None ∧ frame s' = Some Demo.frameA.
Proof.
  assert (Hreach : Demo.reach Demo.relocked_state).
  { apply (reach_run Demo.to_relocked). vm_compute. reflexivity. }
  split; [exact Hreach|]. split; [reflexivity|].
  destruct (lock_held_briefly _ _ _ _ _ _ Hreach) as [H _].
  destruct (H 0 eq_refl) as (n & s' & ss & ss' & Hn1 & Hn2 & _ & _ & Hrun & Ho & _ & _ & Hf).
  exists n, s'. split; [exact Hn1|]. split; [exact Hn2|].
  split; [exact Hrun|]. split; [exact Ho|]. rewrite Hf. reflexivity.
Defined.

Lemma frames_read_are_distinct_witness :
  Demo.reach Demo.missed_state ∧
  sessions Demo.missed_state !! 0 = Some Demo.missed_handler ∧
  version Demo.missed_state = 3 ∧
  NoDup (map fst (seen Demo.missed_handler)) ∧
  length (seen Demo.missed_handler) ≤ 3 ∧
  cursor Demo.missed_handler ≤ 3.
Proof.
  assert (Hreach : Demo.reach Demo.missed_state).
  { apply (reach_run Demo.to_missed). vm_compute. reflexivity. }
  split; [exact Hreach|]. split; [reflexivity|]. split; [reflexivity|].
  destruct (frames_read_are_distinct _ _ _ _ _ Demo.missed_state 0 Demo.missed_handler
              Hreach eq_refl) as (H1 & H2 & H3 & _).
  split; [exact H1|]. split; [exact H2|exact H3].
Defined.

Lemma nothing_sent_before_first_frame_witness :
  Demo.reach Demo.waiting_state ∧
  version Demo.waiting_state = 0 ∧
  sessions Demo.waiting_state !! 0 = Some Demo.waiting_handler ∧
  frame Demo.waiting_state = None ∧
  seen Demo.waiting_handler = [] ∧
  sent Demo.waiting_handler `prefix_of` (Demo.get (req Demo.waiting_handler)).1.
Proof.
  assert (Hreach : Demo.reach Demo.waiting_state).
  { apply (reach_run Demo.to_waiting). vm_compute. reflexivity. }
  split; [exact Hreach|]. split; [reflexivity|]. split; [reflexivity|].
  destruct (nothing_sent_before_first_frame _ _ _ _ _ Demo.waiting_state 0
              Demo.waiting_handler Hreach eq_refl eq_refl)
    as (H1 & H2 & _ & _ & _ & _ & H3).
  split; [exact H1|]. split; [exact H2|exact H3].
Defined.

Lemma loop_only_for_stream_path_witness :
  Demo.reach Demo.delivered_state ∧
  sessions Demo.delivered_state !! 0 = Some Demo.delivered_handler ∧
  answering (ctl Demo.delivered_handler) = false ∧
  path (req Demo.delivered_handler) = "/stream.mjpg" ∧
  Demo.check (Authorization (req Demo.delivered_handler)) = true.
Proof.
  assert (Hreach : Demo.reach Demo.delivered_state).
  { apply (reach_run Demo.to_delivered). vm_compute. reflexivity. }
  split; [exact Hreach|]. split; [reflexivity|]. split; [reflexivity|].
  destruct (loop_only_for_stream_path _ _ _ _ _ Demo.delivered_state 0
              Demo.delivered_handler Hreach eq_refl) as [H _].
  exact (H (or_introl eq_refl)).
Defined.



Lemma bind_failure_stops_camera_witness :
  Forall (λ c, Demo.port_in_use c = None) before_try ∧
  Demo.port_in_use StreamingServer = Some OSError ∧
  calls serve_forever (main Demo.port_in_use []).1 = 0 ∧
  calls stop_recording (main Demo.port_in_use []).1 = 1 ∧
  (main Demo.port_in_use []).2 = Raise OSError.
Proof.
  assert (H : Forall (λ c, Demo.port_in_use c = None) before_try)
    by (repeat constructor).
  split; [exact H|]. split; [reflexivity|].
  destruct (bind_failure_stops_camera Demo.port_in_use OSError H eq_refl
              ltac:(discriminate)) as (H1 & _ & H2 & _ & H3).
  split; [exact H1|]. split; [exact H2|]. exact (H3 eq_refl eq_refl).
Defined.

Lemma encoded_credentials_validate_witness :
  Client.basic_header (u "admin") (u "secret") = Demo.good_header ∧
  Demo.check (Some (Client.basic_header (u "admin") (u "secret"))) = true ∧
  Demo.check (Some (Client.basic_header (u "admin") (u "Secret"))) ≠ true ∧
  check_auth (u "admin") Demo.accented PyLib.b64decode PyLib.decode_utf8
    (Some (Client.basic_header (u "admin") Demo.accented)) = true.
Proof.
  assert (Hc : COLON ∉ u "admin") by (vm_compute; absent).
  split; [reflexivity|]. split; [|split].
  - apply (encoded_credentials_validate (u "admin") (u "secret") (u "admin") (u "secret"));
      [repeat constructor | exact Hc | split; reflexivity].
  - intros H.
    apply (encoded_credentials_validate (u "admin") (u "secret") (u "admin") (u "Secret"))
      in H as [_ H]; [discriminate H | repeat constructor | exact Hc].
  - apply (encoded_credentials_validate (u "admin") Demo.accented (u "admin") Demo.accented);
      [repeat constructor | exact Hc | split; reflexivity].
Defined.

Lemma one_connection_at_a_time_witness :
  served (u "admin") (u "secret") PyLib.b64decode PyLib.decode_utf8 Demo.page
    Demo.delivered_state ∧
  idle Demo.delivered_state = false ∧
  serve (u "admin") (u "secret") PyLib.b64decode PyLib.decode_utf8 Demo.page
    (Accept Demo.stream_request) Demo.delivered_state = None.
Proof.
  assert (Hs : served (u "admin") (u "secret") PyLib.b64decode PyLib.decode_utf8
                 Demo.page Demo.delivered_state).
  { exists Demo.to_delivered. vm_compute. reflexivity. }
  split; [exact Hs|]. split; [reflexivity|].
  destruct (one_connection_at_a_time _ _ _ _ _ _ Hs) as (_ & _ & _ & H).
  exact (H eq_refl Demo.stream_request).
Defined.

Lemma stream_blocks_the_server_witness :
  served (u "admin") (u "secret") PyLib.b64decode PyLib.decode_utf8 Demo.page
    Demo.body_state ∧
  serve_run (u "admin") (u "secret") PyLib.b64decode PyLib.decode_utf8 Demo.page
    (publish_all [Demo.frameB; Demo.frameC] ++ repeat (Step 0) 5) Demo.body_state =
    Some Demo.missed_state ∧
  length (sessions Demo.missed_state) = 1 ∧
  ∀ r, serve (u "admin") (u "secret") PyLib.b64decode PyLib.decode_utf8 Demo.page
         (Accept r) Demo.missed_state = None.
Proof.
  assert (Hs : served (u "admin") (u "secret") PyLib.b64decode PyLib.decode_utf8
                 Demo.page Demo.body_state).
  { exists Demo.to_body. vm_compute. reflexivity. }
  assert (Hrun : serve_run (u "admin") (u "secret") PyLib.b64decode PyLib.decode_utf8
                   Demo.page
                   (publish_all [Demo.frameB; Demo.frameC] ++ repeat (Step 0) 5)
                   Demo.body_state = Some Demo.missed_state).
  { vm_compute. reflexivity. }
  split; [exact Hs|]. split; [exact Hrun|].
  destruct (stream_blocks_the_server (u "admin") (u "secret") PyLib.b64decode
              PyLib.decode_utf8 Demo.page Demo.body_state 0 Demo.body_handler
              (publish_all [Demo.frameB; Demo.frameC] ++ repeat (Step 0) 5)
              Demo.missed_state Hs eq_refl eq_refl eq_refl eq_refl)
    as (_ & Hlen & _ & Hno); [|exact Hrun|].
  { repeat constructor; discriminate. }
  split; [exact Hlen | exact Hno].
Defined.

Lemma scheme_is_basic_in_any_case_witness :
  lower "bAsIc" = "basic" ∧ lower "Basic" = "basic".
Proof.
  destruct (scheme_is_basic_in_any_case (u "admin") (u "secret") PyLib.b64decode
              PyLib.decode_utf8) as [H _].
  split; apply H.
  - exists "b"%char, "A"%char, "s"%char, "I"%char, "c"%char. auto 10.
  - exists "B"%char, "a"%char, "s"%char, "i"%char, "c"%char. auto 10.
Defined.

Lemma routes_by_request_target_witness :
  Demo.check (Some Demo.good_header) = true ∧
  (Demo.get (parsed (Some Demo.good_header) "//stream.mjpg")).2 = true ∧
  Demo.get (parsed (Some Demo.good_header) "/stream.mjpg?x=1") = not_found.
Proof.
  split; [reflexivity|].
  destruct (routes_by_request_target (u "admin") (u "secret") PyLib.b64decode
              PyLib.decode_utf8 Demo.page (Some Demo.good_header) "//stream.mjpg"
              eq_refl) as (H & _).
  split; [apply H; exists 1; reflexivity|].
  destruct (routes_by_request_target (u "admin") (u "secret") PyLib.b64decode
              PyLib.decode_utf8 Demo.page (Some Demo.good_header) "/stream.mjpg"
              eq_refl) as (_ & _ & _ & H').
  apply (H' "?x=1"). discriminate.
Defined.
